(** * Verlet particle simulation: the physics core of [Simulation.ts]

    A shallow embedding of the particle / link / simulation classes and of
    the fixed-substep loop, followed by the properties stated about them.

    JavaScript numbers are kept behind the interface [Number], so that the
    code is written once and read at two number types:
    - [R], exact real arithmetic, where the algebraic statements live;
    - [float], the kernel's IEEE 754 binary64 numbers (the numbers
      JavaScript computes with), where the statements about division by
      zero and non-finite values live, and where the code can be run. *)

From Stdlib Require Import ZArith Floats Reals Lra Lia String.
From stdpp Require Import base list.

Set Default Proof Using "Type".

(** ** Numbers *)

(** The operations the source applies to its [number]s. None of them is
    given a law here: what holds for every instance holds for the floating
    point numbers too. *)
Class Number := {
  num : Type;
  lit : Z -> num;                   (* an integer literal *)
  nadd : num -> num -> num;         (* a + b *)
  nsub : num -> num -> num;         (* a - b *)
  nmul : num -> num -> num;         (* a * b *)
  ndiv : num -> num -> num;         (* a / b *)
  nltb : num -> num -> bool;        (* a < b *)
  neqb : num -> num -> bool;        (* a === b *)
  truthy : num -> bool;             (* ToBoolean(a) *)
  Math_min : num -> num -> num;
  Math_hypot : num -> num -> num;
  Math_PI : num
}.

(** The operations for which the kernel's floating point numbers have no
    primitive: the remainder [a % b], which only the spawn timer of [step]
    uses, and [Math.cos] and [Math.sin], which only the scenario constructor
    calls. *)
Class NumberExt (N : Number) := {
  nrem : num -> num -> num;         (* a % b *)
  Math_cos : num -> num;
  Math_sin : num -> num
}.

Declare Scope js_scope.
Delimit Scope js_scope with js.
Infix "+." := nadd (at level 50, left associativity) : js_scope.
Infix "-." := nsub (at level 50, left associativity) : js_scope.
Infix "*." := nmul (at level 40, left associativity) : js_scope.
Infix "/." := ndiv (at level 40, left associativity) : js_scope.
Infix "<." := nltb (at level 70, no associativity) : js_scope.
Notation "a >. b" := (nltb b a) (at level 70, no associativity) : js_scope.
Infix "===" := neqb (at level 70, no associativity) : js_scope.
Notation "# z" := (lit z%Z) (at level 9, z at level 9, format "# z") : js_scope.
Local Open Scope js_scope.

(** ** The data model *)

Inductive SimType := DoublePendulums | LongPendulum | BoundedObjects.

Section Model.
Context {N : Number} {X : NumberExt N}.

(** [type Vec2 = [number, number]]: every operation builds a new pair, and
    nothing in the source writes into one, so a pair is a value. *)
Definition Vec2 : Type := (num * num)%type.

Definition Vec2_add (a b : Vec2) : Vec2 := (a.1 +. b.1, a.2 +. b.2).
Definition Vec2_sub (a b : Vec2) : Vec2 := (a.1 -. b.1, a.2 -. b.2).
Definition Vec2_scale (a : Vec2) (s : num) : Vec2 := (a.1 *. s, a.2 *. s).
Definition Vec2_length (a : Vec2) : num := Math_hypot a.1 a.2.
Definition Vec2_equal (a b : Vec2) : bool := (a.1 === b.1) && (a.2 === b.2).

(** [class SimObject] and its subclass [FrozenSimObject]. The subclass adds
    the field [originalPosition] and overrides [frozen], [updatePosition] and
    [draw]; here the class of an object is its [kind]. *)
Inductive Kind :=
  | Free
  | Frozen (originalPosition : Vec2).

Record SimObject := {
  kind : Kind;
  position : Vec2;
  oldPosition : Vec2;
  accleration : Vec2;
  radius : num;
  mass : num
}.

Definition frozen (o : SimObject) : bool :=
  match kind o with Frozen _ => true | Free => false end.

Definition set_position (p : Vec2) (o : SimObject) : SimObject :=
  {| kind := kind o; position := p; oldPosition := oldPosition o;
     accleration := accleration o; radius := radius o; mass := mass o |}.
Definition set_oldPosition (p : Vec2) (o : SimObject) : SimObject :=
  {| kind := kind o; position := position o; oldPosition := p;
     accleration := accleration o; radius := radius o; mass := mass o |}.
Definition set_accleration (p : Vec2) (o : SimObject) : SimObject :=
  {| kind := kind o; position := position o; oldPosition := oldPosition o;
     accleration := p; radius := radius o; mass := mass o |}.
Definition set_mass (m : num) (o : SimObject) : SimObject :=
  {| kind := kind o; position := position o; oldPosition := oldPosition o;
     accleration := accleration o; radius := radius o; mass := m |}.

(** [constructor(position, radius = 10, mass = radius * radius)] *)
Definition new_SimObject (pos : Vec2) (radius_arg mass_arg : option num)
  : SimObject :=
  let r := default #10 radius_arg in
  let m := default (r *. r) mass_arg in
  {| kind := Free; position := pos; oldPosition := pos;
     accleration := (#0, #0); radius := r; mass := m |}.

(** [super(...args); this.originalPosition = this.position] *)
Definition new_FrozenSimObject (pos : Vec2) (radius_arg mass_arg : option num)
  : SimObject :=
  let o := new_SimObject pos radius_arg mass_arg in
  {| kind := Frozen (position o); position := position o;
     oldPosition := oldPosition o; accleration := accleration o;
     radius := radius o; mass := mass o |}.

(** [SimObject.updatePosition(dt)] *)
Definition SimObject_updatePosition (dt : num) (o : SimObject) : SimObject :=
  let velocity := Vec2_sub (position o) (oldPosition o) in
  (* Save current position as old position *)
  let o1 := set_oldPosition (position o) o in
  (* Perform Verlet integration *)
  let o2 :=
    set_position
      (Vec2_add (Vec2_add (position o1) velocity)
                (Vec2_scale (accleration o1) (dt *. dt))) o1 in
  (* Reset acceleration *)
  set_accleration (#0, #0) o2.

(** [FrozenSimObject.updatePosition()] *)
Definition FrozenSimObject_updatePosition (originalPosition : Vec2)
    (o : SimObject) : SimObject :=
  set_oldPosition originalPosition (set_position originalPosition o).

(** The call [obj.updatePosition(dt)], dispatched on the class of [obj]. *)
Definition updatePosition (dt : num) (o : SimObject) : SimObject :=
  match kind o with
  | Free => SimObject_updatePosition dt o
  | Frozen originalPosition => FrozenSimObject_updatePosition originalPosition o
  end.

(** [accelerate(accleration)] *)
Definition accelerate (acc : Vec2) (o : SimObject) : SimObject :=
  set_accleration (Vec2_add (accleration o) acc) o.

(** ** Links

    A [Link] holds references to two objects of [Simulation.objects]. The
    array only grows at its end, so a reference is the index of the object
    in it, and the objects form the store that [apply] reads and writes. *)
Record Link := {
  Link_a : nat;
  Link_b : nat;
  Link_target : num
}.

Abbreviation Store := (list SimObject).

(** [Link.apply()]. Every [this.x.position] is a read of the store at the
    point where the source reads it: the last branch reads [this.b.position]
    after it has written [this.a.position]. A reference that is not in the
    store cannot arise; the store is then left as it is. *)
Definition Link_apply (l : Link) (objs : Store) : Store :=
  match objs !! Link_a l, objs !! Link_b l with
  | Some oa, Some ob =>
      let axis := Vec2_sub (position ob) (position oa) in
      let dist := Vec2_length axis in
      let normal := Vec2_scale axis (#1 /. dist) in
      let delta := Vec2_scale normal (dist -. Link_target l) in
      if frozen oa then
        alter (set_position (Vec2_sub (position ob) delta)) (Link_b l) objs
      else if frozen ob then
        alter (set_position (Vec2_add (position oa) delta)) (Link_a l) objs
      else
        let deltaA :=
          Vec2_scale delta (mass oa /. (mass oa +. mass ob)) in
        let deltaB := Vec2_sub delta deltaA in
        let objs1 :=
          alter (set_position (Vec2_add (position oa) deltaB))
                (Link_a l) objs in
        match objs1 !! Link_b l with
        | Some ob1 =>
            alter (set_position (Vec2_sub (position ob1) deltaA))
                  (Link_b l) objs1
        | None => objs1
        end
  | _, _ => objs
  end.

(** ** The simulation *)

(** The drawing surface. A 2D context is the list of the calls it has
    received. The text that [fillText] draws is [(1 / dt).toFixed(1)]
    followed by [" FPS"]: the call is recorded with the number that is
    formatted. *)
Inductive CanvasOp :=
  | clearRect (x y w h : num)
  | fillStyle (c : string)
  | strokeStyle (c : string)
  | font (f : string)
  | beginPath
  | arc (x y r startAngle endAngle : num)
  | fill
  | stroke
  | moveTo (x y : num)
  | lineTo (x y : num)
  | fillText (fps x y : num).

Definition CanvasRenderingContext2D : Type := list CanvasOp.

(** A canvas is its dimensions and what [canvas.getContext('2d')] returns:
    its 2D context, or [null] when it has none to give (the canvas already
    has a context of another type, or none can be created). *)
Record HTMLCanvasElement := {
  width : num;
  height : num;
  getContext_2d : option CanvasRenderingContext2D
}.

(** [class Simulation]. [canvas] and [ctx] are declared with [!] and are
    [undefined] until [start] receives a canvas; [ctx] is [null] after that
    if the canvas had no context to give. [None] stands for both: a method
    call on either throws a [TypeError]. [id] and [t] are optional. *)
Record Simulation := {
  simType : SimType;
  canvas : option HTMLCanvasElement;
  ctx : option CanvasRenderingContext2D;
  playing : bool;
  Simulation_id : option nat;
  Simulation_t : option num;
  bounded : bool;
  collisions : bool;
  objects : Store;
  links : list Link;
  gravity : Vec2
}.

Definition set_canvas (c : option HTMLCanvasElement) (s : Simulation) :=
  {| simType := simType s; canvas := c; ctx := ctx s; playing := playing s;
     Simulation_id := Simulation_id s; Simulation_t := Simulation_t s;
     bounded := bounded s; collisions := collisions s; objects := objects s;
     links := links s; gravity := gravity s |}.
Definition set_ctx (c : option CanvasRenderingContext2D) (s : Simulation) :=
  {| simType := simType s; canvas := canvas s; ctx := c; playing := playing s;
     Simulation_id := Simulation_id s; Simulation_t := Simulation_t s;
     bounded := bounded s; collisions := collisions s; objects := objects s;
     links := links s; gravity := gravity s |}.
Definition set_playing (p : bool) (s : Simulation) :=
  {| simType := simType s; canvas := canvas s; ctx := ctx s; playing := p;
     Simulation_id := Simulation_id s; Simulation_t := Simulation_t s;
     bounded := bounded s; collisions := collisions s; objects := objects s;
     links := links s; gravity := gravity s |}.
Definition set_id (i : option nat) (s : Simulation) :=
  {| simType := simType s; canvas := canvas s; ctx := ctx s;
     playing := playing s; Simulation_id := i; Simulation_t := Simulation_t s;
     bounded := bounded s; collisions := collisions s; objects := objects s;
     links := links s; gravity := gravity s |}.
Definition set_t (t : option num) (s : Simulation) :=
  {| simType := simType s; canvas := canvas s; ctx := ctx s;
     playing := playing s; Simulation_id := Simulation_id s; Simulation_t := t;
     bounded := bounded s; collisions := collisions s; objects := objects s;
     links := links s; gravity := gravity s |}.
Definition set_bounded (b : bool) (s : Simulation) :=
  {| simType := simType s; canvas := canvas s; ctx := ctx s;
     playing := playing s; Simulation_id := Simulation_id s;
     Simulation_t := Simulation_t s; bounded := b; collisions := collisions s;
     objects := objects s; links := links s; gravity := gravity s |}.
Definition set_collisions (b : bool) (s : Simulation) :=
  {| simType := simType s; canvas := canvas s; ctx := ctx s;
     playing := playing s; Simulation_id := Simulation_id s;
     Simulation_t := Simulation_t s; bounded := bounded s; collisions := b;
     objects := objects s; links := links s; gravity := gravity s |}.
Definition set_objects (o : Store) (s : Simulation) :=
  {| simType := simType s; canvas := canvas s; ctx := ctx s;
     playing := playing s; Simulation_id := Simulation_id s;
     Simulation_t := Simulation_t s; bounded := bounded s;
     collisions := collisions s; objects := o; links := links s;
     gravity := gravity s |}.
Definition set_links (l : list Link) (s : Simulation) :=
  {| simType := simType s; canvas := canvas s; ctx := ctx s;
     playing := playing s; Simulation_id := Simulation_id s;
     Simulation_t := Simulation_t s; bounded := bounded s;
     collisions := collisions s; objects := objects s; links := l;
     gravity := gravity s |}.

(** *** The substep on the store *)

(** [applyGravity()] *)
Definition applyGravity (g : Vec2) (objs : Store) : Store :=
  accelerate g <$> objs.

(** The body of the loop of [applyConstraint()] for one object, with
    [center] the [position] and [r] the [radius] of the circle. *)
Definition constrain (center : Vec2) (r : num) (obj : SimObject) : SimObject :=
  let distance := Vec2_length (Vec2_sub (position obj) center) in
  if distance >. r -. radius obj then
    let direction := Vec2_sub (position obj) center in
    let normal := Vec2_scale direction (#1 /. distance) in
    set_position (Vec2_add center (Vec2_scale normal (r -. radius obj))) obj
  else obj.

(** The body of the inner loop of [solveCollisions()] for the objects at
    [i] and [j]. *)
Definition collide (i j : nat) (objs : Store) : Store :=
  match objs !! i, objs !! j with
  | Some a, Some b =>
      let axis := Vec2_sub (position a) (position b) in
      let distance := Vec2_length axis in
      if distance === #0 then objs (* continue *) else
      let minDistance := radius a +. radius b in
      if distance <. minDistance then
        let normal := Vec2_scale axis (#1 /. distance) in
        let delta := Vec2_scale normal (minDistance -. distance) in
        if frozen a then
          alter (set_position (Vec2_sub (position b) delta)) j objs
        else if frozen b then
          alter (set_position (Vec2_add (position a) delta)) i objs
        else
          let deltaA := Vec2_scale delta (mass a /. (mass a +. mass b)) in
          let deltaB := Vec2_sub delta deltaA in
          let objs1 :=
            alter (set_position (Vec2_add (position a) deltaB)) i objs in
          match objs1 !! j with
          | Some b1 =>
              alter (set_position (Vec2_sub (position b1) deltaA)) j objs1
          | None => objs1
          end
      else objs
  | _, _ => objs
  end.

(** [solveCollisions()]: [i] runs over [0 .. length - 1] and [j] over
    [i + 1 .. length - 1]; no iteration changes the length of the array. *)
Definition solveCollisions (objs : Store) : Store :=
  foldl
    (fun os i =>
       foldl (fun os' j => collide i j os') os
             (seq (i + 1) (length os - (i + 1))))
    objs (seq 0 (length objs)).

(** [applyLinks()] *)
Definition applyLinks (lnks : list Link) (objs : Store) : Store :=
  foldl (fun os l => Link_apply l os) objs lnks.

(** [updatePositions(dt)] *)
Definition updatePositions (dt : num) (objs : Store) : Store :=
  updatePosition dt <$> objs.

(** *** Methods that may throw

    Reading a property of [this.canvas] or [this.ctx] while it is
    [undefined] throws a [TypeError]. A method of [Simulation] is a function
    from the state to the state it leaves and either its result or the
    error it threw: what was written before the throw stays written. *)
Inductive Error := TypeError.

Inductive Completion (A : Type) :=
  | Normal (x : A)
  | Throw (e : Error).
Arguments Normal {A} x.
Arguments Throw {A} e.

Definition M (A : Type) : Type := Simulation -> Simulation * Completion A.

Definition ret {A} (x : A) : M A := fun s => (s, Normal x).
Definition throw {A} (e : Error) : M A := fun s => (s, Throw e).
Definition bind {A B} (m : M A) (k : A -> M B) : M B :=
  fun s =>
    match m s with
    | (s', Normal x) => k x s'
    | (s', Throw e) => (s', Throw e)
    end.
Definition get {A} (f : Simulation -> A) : M A := fun s => (s, Normal (f s)).
Definition modify (f : Simulation -> Simulation) : M unit :=
  fun s => (f s, Normal tt).

Notation "x <- m ;; k" := (bind m (fun x => k))
  (at level 100, m at next level, right associativity).
Notation "m ;; k" := (bind m (fun _ => k))
  (at level 100, right associativity).

(** [for (const x of xs) body(x)] *)
Fixpoint for_of {A} (xs : list A) (body : A -> M unit) : M unit :=
  match xs with
  | [] => ret tt
  | x :: xs' => body x ;; for_of xs' body
  end.

(** [for (let i = lo; i < lo + n; i++) body(i)] *)
Fixpoint for_range (lo n : nat) (body : nat -> M unit) : M unit :=
  match n with
  | O => ret tt
  | S n' => body lo ;; for_range (S lo) n' body
  end.

(** [this.canvas], about to be dereferenced. *)
Definition the_canvas : M HTMLCanvasElement :=
  fun s =>
    match canvas s with
    | Some c => (s, Normal c)
    | None => (s, Throw TypeError)
    end.

(** [this.ctx], about to be dereferenced. *)
Definition the_ctx : M CanvasRenderingContext2D :=
  fun s =>
    match ctx s with
    | Some c => (s, Normal c)
    | None => (s, Throw TypeError)
    end.

(** A call of a method of [this.ctx], or an assignment to one of its
    properties. *)
Definition ctx_call (op : CanvasOp) : M unit :=
  fun s =>
    match ctx s with
    | Some c => (set_ctx (Some (c ++ [op])) s, Normal tt)
    | None => (s, Throw TypeError)
    end.

(** [applyConstraint()]: [position] is computed from the canvas before the
    loop starts. *)
Definition applyConstraint : M unit :=
  c <- the_canvas ;;
  let position := (width c /. #2, height c /. #2) in
  let radius := #250 in
  modify (fun s => set_objects (constrain position radius <$> objects s) s).

(** [update(dt)] *)
Definition update (dt : num) : M unit :=
  modify (fun s => set_objects (applyGravity (gravity s) (objects s)) s) ;;
  b <- get bounded ;;
  (if b then applyConstraint else ret tt) ;;
  c <- get collisions ;;
  (if c then modify (fun s => set_objects (solveCollisions (objects s)) s)
   else ret tt) ;;
  modify (fun s => set_objects (applyLinks (links s) (objects s)) s) ;;
  modify (fun s => set_objects (updatePositions dt (objects s)) s).

(** [SimObject.draw(ctx)] and its override in [FrozenSimObject]. *)
Definition SimObject_draw (o : SimObject) : M unit :=
  ctx_call (fillStyle (if frozen o then "gray" else "white")) ;;
  ctx_call beginPath ;;
  ctx_call (arc (position o).1 (position o).2 (radius o) #0 (#2 *. Math_PI)) ;;
  ctx_call fill.

(** [Link.draw(ctx)] *)
Definition Link_draw (l : Link) : M unit :=
  objs <- get objects ;;
  match objs !! Link_a l, objs !! Link_b l with
  | Some oa, Some ob =>
      ctx_call (strokeStyle "limegreen") ;;
      ctx_call beginPath ;;
      ctx_call (moveTo (position oa).1 (position oa).2) ;;
      ctx_call (lineTo (position ob).1 (position ob).2) ;;
      ctx_call stroke
  | _, _ => ret tt
  end.

(** [draw()] *)
Definition draw : M unit :=
  (* Clear canvas: [this.ctx.clearRect] is looked up first *)
  _ <- the_ctx ;;
  c <- the_canvas ;;
  ctx_call (clearRect #0 #0 (width c) (height c)) ;;
  (* Draw constraint *)
  b <- get bounded ;;
  (if b then
     ctx_call (strokeStyle "white") ;;
     ctx_call beginPath ;;
     c <- the_canvas ;;
     ctx_call (arc (width c /. #2) (height c /. #2) #250 #0 (#2 *. Math_PI)) ;;
     ctx_call stroke
   else ret tt) ;;
  (* Draw objects *)
  objs <- get objects ;;
  for_of objs SimObject_draw ;;
  (* Draw links *)
  lnks <- get links ;;
  for_of lnks Link_draw.

Definition substeps : nat := 1000.

(** [(t - (this.t || t)) / 1000], with [prev] the value of [this.t]:
    [undefined], [0] and [NaN] are falsy. *)
Definition step_dt (prev : option num) (t : num) : num :=
  (t -. (match prev with
         | Some p => if truthy p then p else t
         | None => t
         end)) /. #1000.

(** [Math.min(dt, 1 / 50) / substeps] *)
Definition step_subDt (dt : num) : num :=
  Math_min dt (#1 /. #50) /. #(Z.of_nat substeps).

(** The last statement of [step]: add a new object 2 times per second, up
    to 100. [random] is the value that [Math.random()] returns. *)
Definition spawn (t dt random : num) : M unit :=
  ty <- get simType ;;
  match ty with
  | BoundedObjects =>
      objs <- get objects ;;
      if (nrem t #500 <. dt *. #1000) && (length objs <? 100)%nat then
        modify (fun s =>
          set_objects
            (objects s ++
               [new_SimObject (#350, #100) (Some (random *. #20 +. #10)) None])
            s)
      else ret tt
  | _ => ret tt
  end.

(** [step(t)]. [handle] is the value that [requestAnimationFrame] returns
    when it is called; the callback it registers is a later call of [step]
    by the scheduler. *)
Definition step (t : num) (handle : nat) (random : num) : M unit :=
  prev <- get Simulation_t ;;
  let dt := step_dt prev t in
  modify (set_t (Some t)) ;;
  (* Advance simulation with substeps; cap dt to 1/50th of a second *)
  let subDt := step_subDt dt in
  for_range 0 substeps (fun _ => update subDt) ;;
  (* Draw *)
  draw ;;
  (* Show FPS *)
  let fps := #1 /. dt in
  ctx_call (fillStyle "white") ;;
  ctx_call (font "20px monospace") ;;
  ctx_call (fillText fps #10 #30) ;;
  (* Schedule next frame *)
  p <- get playing ;;
  (if p then modify (set_id (Some handle)) else ret tt) ;;
  spawn t dt random.

(** [start(canvas?)]. The [!] of [canvas.getContext('2d')!] is erased when
    the code is compiled: what is stored is what [getContext] returns. *)
Definition start (c : option HTMLCanvasElement) (handle : nat) (random : num)
  : M unit :=
  (if c is Some cv then
     modify (set_canvas (Some cv)) ;;
     modify (set_ctx (getContext_2d cv))
   else ret tt) ;;
  modify (set_playing true) ;;
  step #0 handle random.

(** [stop()]: [cancelAnimationFrame(this.id)] acts on the scheduler only. *)
Definition stop : M unit :=
  modify (set_playing false).

(** *** The scenarios *)

(** The fields of a new [Simulation], before the constructor body runs. *)
Definition Simulation_fields (ty : SimType) : Simulation :=
  {| simType := ty; canvas := None; ctx := None; playing := false;
     Simulation_id := None; Simulation_t := None; bounded := false;
     collisions := false; objects := []; links := [];
     gravity := (#0, #1000) |}.

(** One turn of the loop of the double pendulums: [objs] and [lnks] are
    [this.objects] and [this.links]; a pushed object is referred to by the
    index it is pushed at. *)
Definition DoublePendulums_body (diff : num) (st : Store * list Link) (i : nat)
  : Store * list Link :=
  let '(objs, lnks) := st in
  let angle := (#(Z.of_nat i) *. diff +. #7 /. #5) *. Math_PI in
  let x1 := #300 +. #100 *. Math_cos angle in
  let y1 := #200 +. #100 *. Math_sin angle in
  let obj := length objs in
  let objs := objs ++ [new_SimObject (x1, y1) (Some #5) None] in
  let x2 := x1 +. #100 *. Math_cos angle in
  let y2 := y1 +. #100 *. Math_sin angle in
  let obj2 := length objs in
  let objs := objs ++ [new_SimObject (x2, y2) (Some #5) None] in
  let lnks := lnks ++ [{| Link_a := 0; Link_b := obj; Link_target := #100 |}] in
  let lnks :=
    lnks ++ [{| Link_a := obj; Link_b := obj2; Link_target := #100 |}] in
  (objs, lnks).

(** One turn of the loop of the long pendulum. [this.objects.at(-1)] is the
    last object; the array is never empty here. *)
Definition LongPendulum_body (diff len : num) (st : Store * list Link)
    (i : nat) : Store * list Link :=
  let '(objs, lnks) := st in
  match last objs with
  | Some prev =>
      let '(px, py) := position prev in
      let angle := (#(Z.of_nat i) *. diff +. #6 /. #5) *. Math_PI in
      let x := px +. len *. Math_cos angle in
      let y := py +. len *. Math_sin angle in
      let objs := objs ++ [new_SimObject (x, y) (Some #5) None] in
      let lnks :=
        lnks ++ [{| Link_a := length objs - 2; Link_b := length objs - 1;
                    Link_target := len |}] in
      (objs, lnks)
  | None => st
  end.

(** [constructor(simType)] *)
Definition new_Simulation (ty : SimType) : Simulation :=
  let s := Simulation_fields ty in
  match ty with
  | DoublePendulums =>
      let objs := [new_FrozenSimObject (#300, #200) (Some #5) None] in
      (* Create a bunch of double pendulums attached to the first object *)
      let count := 10%nat in
      let diff := Math_PI /. #10000 /. #(Z.of_nat count) in
      let '(objs, lnks) :=
        foldl (DoublePendulums_body diff) (objs, []) (seq 0 count) in
      set_links lnks (set_objects objs s)
  | LongPendulum =>
      let objs := [new_FrozenSimObject (#300, #200) (Some #5) None] in
      (* Create a chain of objects *)
      let count := 10%nat in
      let diff := #0 in
      let len := #50 in
      let '(objs, lnks) :=
        foldl (LongPendulum_body diff len) (objs, []) (seq 1 (count - 1)) in
      let objs := alter (set_mass #10000) (length objs - 1) objs in
      set_links lnks (set_objects objs s)
  | BoundedObjects =>
      set_collisions true (set_bounded true s)
  end.

End Model.

Abbreviation Store := (list SimObject).
Arguments Normal {A} x.
Arguments Throw {A} e.

(** ** The two number types *)

(** *** Exact arithmetic

    The real numbers, with [Math.hypot] the Euclidean norm. Division is
    Rocq's total division, which agrees with the source wherever the divisor
    is not zero; the statements made at this type that divide by a distance
    or by a sum of masses assume it is not zero. *)
Module Exact.

Definition trunc (x : R) : Z :=
  if Rle_dec 0%R x then Int_part x else (- Int_part (- x)%R)%Z.

Definition R_Number : Number := {|
  num := R;
  lit := IZR;
  nadd := Rplus;
  nsub := Rminus;
  nmul := Rmult;
  ndiv := Rdiv;
  nltb := fun a b => if Rlt_dec a b then true else false;
  neqb := fun a b => if Req_dec_T a b then true else false;
  truthy := fun a => if Req_dec_T a 0%R then false else true;
  Math_min := Rmin;
  Math_hypot := fun x y => sqrt (x * x + y * y)%R;
  Math_PI := PI
|}.

Definition R_NumberExt : NumberExt R_Number := {|
  nrem := fun a b : @num R_Number => (a - b * IZR (trunc (a / b)))%R;
  Math_cos := cos;
  Math_sin := sin
|}.

(** The scenes that the examples at this number type are about. *)

(** A free object of mass 3 at the origin and a free object of mass 1 at
    [(8, 0)]; the link between them has target length 4. *)
Definition heavy : @SimObject R_Number :=
  new_SimObject (N := R_Number) (0, 0)%R (Some 5%R) (Some 3%R).
Definition light : @SimObject R_Number :=
  new_SimObject (N := R_Number) (8, 0)%R (Some 5%R) (Some 1%R).
Definition heavy_light : list (@SimObject R_Number) := [heavy; light].

(** Two anchored objects, at the origin and at [(8, 0)]. *)
Definition two_anchors : list (@SimObject R_Number) :=
  [ new_FrozenSimObject (N := R_Number) (0, 0)%R (Some 5%R) None;
    new_FrozenSimObject (N := R_Number) (8, 0)%R (Some 5%R) None ].

Definition link_0_1 : @Link R_Number :=
  {| Link_a := 0; Link_b := 1; Link_target := 4%R : @num R_Number |}.

(** [new Simulation(SimType.LongPendulum)] with its [bounded] flag set. *)
Definition bounded_pendulum : @Simulation R_Number :=
  set_bounded true (@new_Simulation R_Number R_NumberExt LongPendulum).

(** The canvas of the page, 600 by 600, with a context that has received
    no call yet. *)
Definition page_canvas : @HTMLCanvasElement R_Number :=
  {| width := 600%R : @num R_Number; height := 600%R : @num R_Number;
     getContext_2d := Some [] |}.

(** [new Simulation(SimType.BoundedObjects)] with the canvas of the page
    and its context attached. *)
Definition page_scene : @Simulation R_Number :=
  set_ctx (Some [])
    (set_canvas (Some page_canvas)
       (@new_Simulation R_Number R_NumberExt BoundedObjects)).

(** An object with a positive radius and a positive mass; an object as
    [spawn] creates it, with a radius in [[10, 30)] and the square of the
    radius as its mass. *)
Definition sized (o : @SimObject R_Number) : Prop :=
  (0 < radius o /\ 0 < mass o)%R.
Definition spawned_size (o : @SimObject R_Number) : Prop :=
  (10 <= radius o < 30 /\ mass o = radius o * radius o)%R.

(** A scene that holds the heavy object alone, with no link and both flags
    off; the scene of the page after it has ticked at 1000 ms. *)
Definition lone_particle : @Simulation R_Number :=
  set_objects [heavy] (Simulation_fields (N := R_Number) LongPendulum).
Definition ticked_scene : @Simulation R_Number :=
  set_t (N := R_Number) (Some 1000%R) page_scene.

(** [Math.random()] returns a number in [[0, 1)]. *)
Definition unit_random (r : R) : Prop := (0 <= r < 1)%R.

(** The state of a free object that started at rest at [p0] and has been
    through [k] substeps of length [dt] under the acceleration [g] alone:
    [k (k + 1) / 2] steps of [g dt^2] lie behind it, [k] of them in the last
    substep. *)
Definition fallen (p0 g : @Vec2 R_Number) (dt : R) (k : nat)
    (o : @SimObject R_Number) : Prop :=
  kind o = Free /\
  position o =
    Vec2_add (N := R_Number) p0
      (Vec2_scale g (dt * dt * (INR k * (INR k + 1) / 2))%R) /\
  oldPosition o =
    Vec2_add (N := R_Number) p0
      (Vec2_scale g (dt * dt * (INR k * (INR k + 1) / 2 - INR k))%R) /\
  accleration o = (0, 0)%R.

(** The cap of a tick in the words of the specification: the time that a
    tick simulates, 1000 substeps of [subDt] each, does not exceed 1/50 s.
    [updatePosition] reads its [dt] as [dt * dt] only, so that a substep of
    length [subDt] simulates the magnitude of [subDt]. [prev] is the stored
    timestamp and [t] the one of the tick. *)
Definition stated_cap (prev : option R) (t : R) : Prop :=
  (1000 *
     Rabs (step_subDt (N := R_Number) (step_dt (N := R_Number) prev t))
   <= 1 / 50)%R.

End Exact.

(** *** IEEE 754 binary64

    The kernel's floating point numbers, which are JavaScript's. *)
Module IEEE.

Definition of_Z (z : Z) : float :=
  match z with
  | Zneg p => PrimFloat.opp (PrimFloat.of_uint63 (Uint63.of_Z (Zpos p)))
  | _ => PrimFloat.of_uint63 (Uint63.of_Z z)
  end.

(** [Math.min]: [NaN] if an argument is [NaN], and [-0] is below [+0]. *)
Definition min (a b : float) : float :=
  if PrimFloat.is_nan a || PrimFloat.is_nan b then PrimFloat.nan
  else if PrimFloat.ltb a b then a
  else if PrimFloat.ltb b a then b
  else if PrimFloat.ltb (PrimFloat.div PrimFloat.one a) PrimFloat.zero then a
  else b.

(** [Math.hypot(x, y)]. The language fixes its special cases: [+Infinity]
    if an argument is infinite, otherwise [NaN] if an argument is [NaN], and
    [+0] if both arguments are zeros. For the other arguments it asks for an
    approximation of the square root of the sum of squares and leaves the
    computation to the engine. The computation taken here is the one of V8:
    the magnitudes are divided by the larger one, so that neither square
    overflows or underflows, and their squares are added with a compensated
    sum, whose state is the sum and the compensation. *)
Definition hypot_summand (max : float) (st : float * float) (a : float)
  : float * float :=
  let '(sum, compensation) := st in
  let n := PrimFloat.div a max in
  let summand := PrimFloat.sub (PrimFloat.mul n n) compensation in
  let preliminary := PrimFloat.add sum summand in
  (preliminary, PrimFloat.sub (PrimFloat.sub preliminary sum) summand).

Definition hypot (x y : float) : float :=
  let ax := PrimFloat.abs x in
  let ay := PrimFloat.abs y in
  if PrimFloat.is_infinity ax || PrimFloat.is_infinity ay then
    PrimFloat.infinity
  else if PrimFloat.is_nan x || PrimFloat.is_nan y then PrimFloat.nan
  else
    let max := if PrimFloat.ltb ax ay then ay else ax in
    if PrimFloat.eqb max PrimFloat.zero then PrimFloat.zero
    else
      let sum := (foldl (hypot_summand max) (PrimFloat.zero, PrimFloat.zero)
                    [ax; ay]).1 in
      PrimFloat.mul (PrimFloat.sqrt sum) max.

Definition float_Number : Number := {|
  num := float;
  lit := of_Z;
  nadd := PrimFloat.add;
  nsub := PrimFloat.sub;
  nmul := PrimFloat.mul;
  ndiv := PrimFloat.div;
  nltb := PrimFloat.ltb;
  neqb := PrimFloat.eqb;
  truthy := fun a =>
    negb (PrimFloat.eqb a PrimFloat.zero || PrimFloat.is_nan a);
  Math_min := min;
  Math_hypot := hypot;
  Math_PI := 0x1.921fb54442d18p+1%float
|}.

(** [!Number.isFinite(x)]: [x] is an infinity or [NaN]. *)
Definition nonfinite (x : float) : bool :=
  match Prim2SF x with
  | S754_infinity _ | S754_nan => true
  | _ => false
  end.

Definition finite (x : float) : bool := negb (nonfinite x).

(** Both components of a vector are non-finite, or both are finite. *)
Definition nonfinite_vec (p : float * float) : bool :=
  nonfinite p.1 && nonfinite p.2.
Definition finite_vec (p : float * float) : bool :=
  finite p.1 && finite p.2.

(** The scenes that the examples at this number type are about. *)

(** An anchor at [(300, 200)] and a free bob hanging 50 below it. *)
Definition anchor : @SimObject float_Number :=
  new_FrozenSimObject (N := float_Number) (300, 200)%float (Some 5%float) None.
Definition bob : @SimObject float_Number :=
  new_SimObject (N := float_Number) (300, 250)%float (Some 5%float) None.

(** A pendulum of one link, as the long pendulum begins. *)
Definition small_pendulum : @Simulation float_Number :=
  set_collisions true
    (set_links
       [{| Link_a := 0; Link_b := 1;
           Link_target := 50%float : @num float_Number |}]
       (set_objects [anchor; bob]
          (Simulation_fields (N := float_Number) LongPendulum))).

(** The small pendulum with a canvas of 600 by 600 and its context. *)
Definition drawn_pendulum : @Simulation float_Number :=
  set_ctx (Some [])
    (set_canvas
       (Some {| width := 600%float : @num float_Number;
                height := 600%float : @num float_Number;
                getContext_2d := Some [] |})
       small_pendulum).

(** A second anchor, at [(300, 208)], and the link of target length 4
    between the two anchors. *)
Definition anchor' : @SimObject float_Number :=
  new_FrozenSimObject (N := float_Number) (300, 208)%float (Some 5%float) None.
Definition anchor_link : @Link float_Number :=
  {| Link_a := 0; Link_b := 1; Link_target := 4%float : @num float_Number |}.

(** A free particle in flight: it has moved by [(0, 1)] in the last
    substep, and gravity has been accumulated. *)
Definition falling : @SimObject float_Number :=
  set_accleration (N := float_Number) (0, 1000)%float
    (set_position (N := float_Number) (350, 101)%float
       (new_SimObject (N := float_Number) (350, 100)%float (Some 10%float)
          None)).

(** Two free particles at the spawn point, where every particle of the
    bounded scene is created. *)
Definition spawned (r : float) : @SimObject float_Number :=
  new_SimObject (N := float_Number) (350, 100)%float (Some r) None.
Definition coincident : list (@SimObject float_Number) :=
  [spawned 10%float; spawned 20%float].
Definition coincident_link : @Link float_Number :=
  {| Link_a := 0; Link_b := 1; Link_target := 30%float : @num float_Number |}.

End IEEE.

(** ** The vocabulary of the statements *)

Section Vocabulary.
Context {N : Number} {X : NumberExt N}.

(** What the constraint passes leave alone in an object. *)
Definition shape (o : SimObject) : Kind * Vec2 * Vec2 * num * num :=
  (kind o, oldPosition o, accleration o, radius o, mass o).

(** An anchored object resting on its anchor [p]. *)
Definition anchored_at (p : Vec2) (o : SimObject) : Prop :=
  kind o = Frozen p /\ position o = p /\ oldPosition o = p.

(** An object that, if it is anchored, rests on its anchor. *)
Definition at_rest (o : SimObject) : Prop :=
  forall p, kind o = Frozen p -> anchored_at p o.

(** The [delta] that [Link.apply()] computes from the positions of its two
    ends and its target length. *)
Definition Link_delta (pa pb : Vec2) (target : num) : Vec2 :=
  let axis := Vec2_sub pb pa in
  let dist := Vec2_length axis in
  let normal := Vec2_scale axis (#1 /. dist) in
  Vec2_scale normal (dist -. target).

(** The split between two free ends in the words of the specification:
    [delta * massA / (massA + massB)] is added to the position of A, and
    [delta * massB / (massA + massB)] is subtracted from the position of
    B. *)
Definition stated_split (oa ob : SimObject) (target : num) : Vec2 * Vec2 :=
  let delta := Link_delta (position oa) (position ob) target in
  (Vec2_add (position oa)
            (Vec2_scale delta (mass oa /. (mass oa +. mass ob))),
   Vec2_sub (position ob)
            (Vec2_scale delta (mass ob /. (mass oa +. mass ob)))).

(** The objects that one [update(dt)] leaves when it returns. *)
Definition substep (dt : num) (s : Simulation) : Store :=
  let o1 := applyGravity (gravity s) (objects s) in
  let o2 :=
    if bounded s then
      match canvas s with
      | Some c => constrain (width c /. #2, height c /. #2) #250 <$> o1
      | None => o1
      end
    else o1 in
  let o3 := if collisions s then solveCollisions o2 else o2 in
  updatePositions dt (applyLinks (links s) o3).

(** [update] called once for each [dt] of a list, in order. *)
Definition updates (dts : list num) : M unit := for_of dts update.

(** A drawing surface is attached. *)
Definition attached (s : Simulation) : Prop :=
  is_Some (canvas s) /\ is_Some (ctx s).

(** [m], run from a state where [P] holds, leaves a state where [Qn] holds
    of its result if it returns, and where [Qt] holds if it throws. *)
Definition triple {A} (P : Simulation -> Prop) (m : M A)
    (Qn : A -> Simulation -> Prop) (Qt : Simulation -> Prop) : Prop :=
  forall s, P s ->
    match m s with
    | (s', Normal x) => Qn x s'
    | (s', Throw _) => Qt s'
    end.

(** [m] keeps [P] for as long as it runs, and leaves [Qt] if it throws. *)
Definition keeps {A} (P : Simulation -> Prop) (m : M A)
    (Qt : Simulation -> Prop) : Prop :=
  triple P m (fun _ => P) Qt.

(** The state that one [update(dt)] leaves when it returns. *)
Definition advance (dt : num) (s : Simulation) : Simulation :=
  set_objects (substep dt s) s.

(** What [step(t)] does once the substeps have run: it draws the frame,
    shows the rate, schedules the next tick and spawns. *)
Definition after_substeps (t dt : num) (handle : nat) (random : num)
  : M unit :=
  bind draw (fun _ =>
  bind (ctx_call (fillStyle "white")) (fun _ =>
  bind (ctx_call (font "20px monospace")) (fun _ =>
  bind (ctx_call (fillText (#1 /. dt) #10 #30)) (fun _ =>
  bind (get playing) (fun p =>
  bind (if p then modify (set_id (Some handle)) else ret tt) (fun _ =>
  spawn t dt random)))))).

(** [P] does not depend on what the context has drawn. *)
Definition ctx_stable (P : Simulation -> Prop) : Prop :=
  forall s c, P s -> P (set_ctx (Some c) s).

(** What can happen to a simulation between two observations: the
    scheduler delivers a tick, the page starts or stops it, or flips one of
    its two flags. *)
Inductive Event :=
  | Tick (t : num) (handle : nat) (random : num)
  | Start (c : option HTMLCanvasElement) (handle : nat) (random : num)
  | Stop
  | Toggle_bounded
  | Toggle_collisions.

Definition fire (s : Simulation) (e : Event) : Simulation :=
  match e with
  | Tick t handle random => (step t handle random s).1
  | Start c handle random => (start c handle random s).1
  | Stop => (stop s).1
  | Toggle_bounded => set_bounded (negb (bounded s)) s
  | Toggle_collisions => set_collisions (negb (collisions s)) s
  end.

Definition run (evs : list Event) (s : Simulation) : Simulation :=
  foldl fire s evs.

(** What no method ever assigns in an object once it is constructed (the
    mass of the last object of the long pendulum is set by the constructor
    itself). *)
Definition identity_of (o : SimObject) : Kind * num * num :=
  (kind o, radius o, mass o).

(** The [delta] that [solveCollisions()] computes for a pair from the
    positions of its two objects and the sum of their radii. *)
Definition collide_delta (pa pb : Vec2) (minDistance : num) : Vec2 :=
  let axis := Vec2_sub pa pb in
  let distance := Vec2_length axis in
  let normal := Vec2_scale axis (#1 /. distance) in
  Vec2_scale normal (minDistance -. distance).

(** [m], run on [s] with any context, returns, leaves [s] as it is but for
    the context, and makes [k] calls on the context. *)
Definition draws {A} (k : nat) (m : M A) (s : Simulation) : Prop :=
  forall log, exists log' x,
    m (set_ctx (Some log) s) = (set_ctx (Some (log ++ log')) s, Normal x) /\
    length log' = k.

(** The two ends of the link [l] are in the store, [target l] apart. *)
Definition at_target (objs : Store) (l : Link) : Prop :=
  exists oa ob,
    objs !! Link_a l = Some oa /\ objs !! Link_b l = Some ob /\
    Vec2_length (Vec2_sub (position ob) (position oa)) = Link_target l.

(** Every link joins two different objects of the store. *)
Definition links_valid (s : Simulation) : Prop :=
  Forall (fun l => Link_a l < length (objects s) /\
                   Link_b l < length (objects s) /\
                   Link_a l <> Link_b l) (links s).

(** No pair of objects is resolved by [solveCollisions]: each pair either
    coincides or is at least the sum of its radii apart. *)
Definition separated (objs : Store) : Prop :=
  forall i j a b,
    i < j -> objs !! i = Some a -> objs !! j = Some b ->
    let distance := Vec2_length (Vec2_sub (position a) (position b)) in
    (distance === #0) = true \/ (distance <. radius a +. radius b) = false.

End Vocabulary.

(** ** Runs of the bounded scene on the page *)

Module Runs.
Import Exact.
#[local] Existing Instance R_Number.
#[local] Existing Instance R_NumberExt.
Local Open Scope R_scope.

(** The bounded scene is started on the canvas of the page and ticks at 16
    ms and at 516 ms. *)
Definition spawning_events : list (@Event R_Number) :=
  [ Start (Some page_canvas) 1%nat (1 / 2);
    Tick 16 2%nat (1 / 2);
    Tick 516 3%nat (1 / 4) ].

(** Both flags of the bounded scene are switched off, as the two
    checkboxes of the page do, the scene is started on the canvas of the
    page, ticks at 16 ms and at 5000 ms, and is stopped. *)
Definition stopping_events : list (@Event R_Number) :=
  [ Toggle_bounded;
    Toggle_collisions;
    Start (Some page_canvas) 1%nat (1 / 2);
    Tick 16 2%nat (1 / 2);
    Tick 5000 3%nat (1 / 2);
    Stop ].

Definition stopped_scene : @Simulation R_Number :=
  run stopping_events (@new_Simulation R_Number R_NumberExt BoundedObjects).

(** The bounded scenario with the canvas of the page and a context
    attached; a scene with no link, both flags off and the gravity of the
    constructor. *)
Definition on_page (s : @Simulation R_Number) : Prop :=
  simType s = BoundedObjects /\ canvas s = Some page_canvas /\
  is_Some (ctx s).
Definition flagless (s : @Simulation R_Number) : Prop :=
  links s = [] /\ bounded s = false /\ collisions s = false /\
  gravity s = (0, 1000).

End Runs.

(** ** Facts that hold at every number type *)

Section Laws.
Context {N : Number} {X : NumberExt N}.

Notation "x <- m ;; k" := (bind m (fun x => k))
  (at level 100, m at next level, right associativity).
Notation "m ;; k" := (bind m (fun _ => k))
  (at level 100, right associativity).

(** *** The store: only positions move *)

Lemma shape_set_position p o : shape (set_position p o) = shape o.
Proof. reflexivity. Qed.

Lemma shape_alter_position p i (objs : Store) :
  shape <$> alter (set_position p) i objs = shape <$> objs.
Proof.
  revert i. induction objs as [|o objs IH]; intros [|i]; try reflexivity.
  change (shape o :: (shape <$> alter (set_position p) i objs)
          = shape o :: (shape <$> objs)).
  f_equal. apply IH.
Qed.

Lemma shape_Link_apply l (objs : Store) :
  shape <$> Link_apply l objs = shape <$> objs.
Proof.
  unfold Link_apply.
  destruct (objs !! Link_a l) as [oa|]; [|reflexivity].
  destruct (objs !! Link_b l) as [ob|]; [|reflexivity].
  cbv zeta.
  destruct (frozen oa); [apply shape_alter_position|].
  destruct (frozen ob); [apply shape_alter_position|].
  match goal with |- context [match ?x with Some _ => _ | None => _ end] =>
    destruct x end;
  rewrite ?shape_alter_position; reflexivity.
Qed.

Lemma shape_collide i j (objs : Store) :
  shape <$> collide i j objs = shape <$> objs.
Proof.
  unfold collide.
  destruct (objs !! i) as [a|]; [|reflexivity].
  destruct (objs !! j) as [b|]; [|reflexivity].
  cbv zeta.
  destruct (_ === _); [reflexivity|].
  destruct (_ <. _); [|reflexivity].
  destruct (frozen a); [apply shape_alter_position|].
  destruct (frozen b); [apply shape_alter_position|].
  match goal with |- context [match ?x with Some _ => _ | None => _ end] =>
    destruct x end;
  rewrite ?shape_alter_position; reflexivity.
Qed.

Lemma shape_foldl {A} (f : Store -> A -> Store) (xs : list A) :
  (forall os x, shape <$> f os x = shape <$> os) ->
  forall objs, shape <$> foldl f objs xs = shape <$> objs.
Proof.
  intros Hf. induction xs as [|x xs IH]; intros objs; simpl; [reflexivity|].
  rewrite IH. apply Hf.
Qed.

Lemma shape_solveCollisions (objs : Store) :
  shape <$> solveCollisions objs = shape <$> objs.
Proof.
  unfold solveCollisions. apply shape_foldl. intros os i.
  apply shape_foldl. intros os' j. apply shape_collide.
Qed.

Lemma shape_applyLinks lnks (objs : Store) :
  shape <$> applyLinks lnks objs = shape <$> objs.
Proof.
  unfold applyLinks. apply shape_foldl. intros os l. apply shape_Link_apply.
Qed.

Lemma shape_constrain center r o : shape (constrain center r o) = shape o.
Proof. unfold constrain. cbv zeta. destruct (_ <. _); reflexivity. Qed.

Lemma shape_constrain_all center r (objs : Store) :
  shape <$> (constrain center r <$> objs) = shape <$> objs.
Proof.
  rewrite <- list_fmap_compose. apply list_fmap_ext.
  intros i o _. apply shape_constrain.
Qed.

Lemma shape_lookup (objs objs' : Store) i o :
  shape <$> objs' = shape <$> objs ->
  objs !! i = Some o ->
  exists o', objs' !! i = Some o' /\ shape o' = shape o.
Proof.
  intros Hs Hi.
  assert (H : (shape <$> objs') !! i = Some (shape o))
    by (rewrite Hs, list_lookup_fmap, Hi; reflexivity).
  rewrite list_lookup_fmap in H.
  destruct (objs' !! i) as [o'|]; [|discriminate].
  exists o'. split; [reflexivity|]. simpl in H. congruence.
Qed.

Lemma shape_length (objs objs' : Store) :
  shape <$> objs' = shape <$> objs -> length objs' = length objs.
Proof.
  intros H. apply (f_equal length) in H. by rewrite !length_fmap in H.
Qed.

(** *** One substep *)

Lemma update_eq dt s :
  update dt s =
    if bounded s then
      match canvas s with
      | Some _ => (set_objects (substep dt s) s, Normal tt)
      | None =>
          (set_objects (applyGravity (gravity s) (objects s)) s,
           Throw TypeError)
      end
    else (set_objects (substep dt s) s, Normal tt).
Proof.
  unfold update, applyConstraint, substep, the_canvas, bind, modify, get, ret.
  destruct (bounded s) eqn:Hb, (canvas s) eqn:Hc, (collisions s) eqn:Hco;
    repeat (progress (simpl; rewrite ?Hb, ?Hc, ?Hco)); reflexivity.
Qed.

Lemma shape_before_integration dt s :
  exists Y : Store,
    substep dt s = updatePositions dt Y /\
    kind <$> Y = kind <$> objects s /\
    length Y = length (objects s).
Proof.
  unfold substep. cbv zeta. eexists. split; [reflexivity|].
  assert (H : forall Y : Store,
    shape <$> Y = shape <$> applyGravity (gravity s) (objects s) ->
    kind <$> Y = kind <$> objects s /\ length Y = length (objects s)).
  { intros Y HY. split.
    - apply (f_equal (fmap (fun x : Kind * Vec2 * Vec2 * num * num =>
                              x.1.1.1.1))) in HY.
      rewrite <- !list_fmap_compose in HY.
      etransitivity; [exact HY|].
      unfold applyGravity. rewrite <- list_fmap_compose. reflexivity.
    - apply shape_length in HY. rewrite HY.
      unfold applyGravity. apply length_fmap. }
  apply H. rewrite shape_applyLinks.
  destruct (collisions s); rewrite ?shape_solveCollisions;
    destruct (bounded s); try reflexivity;
    destruct (canvas s); rewrite ?shape_constrain_all; reflexivity.
Qed.

Lemma substep_length dt s : length (substep dt s) = length (objects s).
Proof.
  destruct (shape_before_integration dt s) as (Y & -> & _ & HY).
  unfold updatePositions. by rewrite length_fmap.
Qed.

(** *** Reasoning about methods *)

Lemma triple_bind {A B} P (m : M A) (k : A -> M B) Q1 Q2 Qt :
  triple P m Q1 Qt ->
  (forall x, triple (Q1 x) (k x) Q2 Qt) ->
  triple P (x <- m ;; k x) Q2 Qt.
Proof.
  intros Hm Hk s HP. unfold bind. specialize (Hm s HP).
  destruct (m s) as [s' [x|e]]; [exact (Hk x s' Hm)|exact Hm].
Qed.

Lemma triple_conseq {A} (P P' : Simulation -> Prop) (m : M A)
    (Qn Qn' : A -> Simulation -> Prop) (Qt Qt' : Simulation -> Prop) :
  (forall s, P' s -> P s) ->
  (forall x s, Qn x s -> Qn' x s) ->
  (forall s, Qt s -> Qt' s) ->
  triple P m Qn Qt -> triple P' m Qn' Qt'.
Proof.
  intros HP HQn HQt H s Hs. specialize (H s (HP s Hs)).
  destruct (m s) as [s' [x|e]]; auto.
Qed.

Lemma triple_fst {A} P (m : M A) Q :
  triple P m (fun _ => Q) Q -> forall s, P s -> Q (m s).1.
Proof. intros H s Hs. specialize (H s Hs). by destruct (m s) as [s' [x|e]]. Qed.

Lemma bind_Normal {A B} (m : M A) (k : A -> M B) s s' x :
  m s = (s', Normal x) -> (y <- m ;; k y) s = k x s'.
Proof. intros H. unfold bind. by rewrite H. Qed.

Lemma bind_Throw {A B} (m : M A) (k : A -> M B) s s' e :
  m s = (s', Throw e) -> (y <- m ;; k y) s = (s', Throw e).
Proof. intros H. unfold bind. by rewrite H. Qed.

Lemma keeps_bind {A B} P (m : M A) (k : A -> M B) Qt :
  keeps P m Qt -> (forall x, keeps P (k x) Qt) -> keeps P (x <- m ;; k x) Qt.
Proof. intros Hm Hk. eapply triple_bind; [exact Hm|exact Hk]. Qed.

Lemma keeps_ret {A} P (x : A) Qt : keeps P (ret x) Qt.
Proof. intros s Hs. exact Hs. Qed.

Lemma keeps_get {A} P (f : Simulation -> A) Qt : keeps P (get f) Qt.
Proof. intros s Hs. exact Hs. Qed.

Lemma keeps_modify P f Qt :
  (forall s, P s -> P (f s)) -> keeps P (modify f) Qt.
Proof. intros Hf s Hs. exact (Hf s Hs). Qed.

Lemma keeps_if {A} P (b : bool) (m1 m2 : M A) Qt :
  keeps P m1 Qt -> keeps P m2 Qt -> keeps P (if b then m1 else m2) Qt.
Proof. by destruct b. Qed.

Lemma keeps_for_of {A} P (xs : list A) body Qt :
  (forall x, keeps P (body x) Qt) -> keeps P (for_of xs body) Qt.
Proof.
  intros Hb. induction xs as [|x xs IH]; simpl.
  - apply keeps_ret.
  - apply keeps_bind; [apply Hb|intros _; exact IH].
Qed.

Lemma keeps_for_range P lo n body Qt :
  (forall i, keeps P (body i) Qt) -> keeps P (for_range lo n body) Qt.
Proof.
  intros Hb. revert lo. induction n as [|n IH]; intros lo; simpl.
  - apply keeps_ret.
  - apply keeps_bind; [apply Hb|intros _; apply IH].
Qed.

Lemma keeps_the_canvas P Qt :
  (forall s, P s -> canvas s = None -> Qt s) -> keeps P the_canvas Qt.
Proof.
  intros H s Hs. unfold the_canvas.
  destruct (canvas s) eqn:Hc; [exact Hs|exact (H s Hs Hc)].
Qed.

Lemma keeps_the_ctx P Qt :
  (forall s, P s -> ctx s = None -> Qt s) -> keeps P the_ctx Qt.
Proof.
  intros H s Hs. unfold the_ctx.
  destruct (ctx s) eqn:Hc; [exact Hs|exact (H s Hs Hc)].
Qed.

Lemma keeps_ctx_call P op Qt :
  ctx_stable P ->
  (forall s, P s -> ctx s = None -> Qt s) -> keeps P (ctx_call op) Qt.
Proof.
  intros Hst H s Hs. unfold ctx_call.
  destruct (ctx s) eqn:Hc; [exact (Hst s _ Hs)|exact (H s Hs Hc)].
Qed.

Lemma keeps_update P dt Qt :
  (forall s, P s -> P (advance dt s)) ->
  (forall s, P s -> canvas s = None ->
     Qt (set_objects (applyGravity (gravity s) (objects s)) s)) ->
  keeps P (update dt) Qt.
Proof.
  intros Hn Ht s Hs. rewrite update_eq.
  destruct (bounded s); [destruct (canvas s) eqn:Hc|];
    [exact (Hn s Hs)|exact (Ht s Hs Hc)|exact (Hn s Hs)].
Qed.

Lemma keeps_draw P Qt :
  ctx_stable P ->
  (forall s, P s -> ctx s = None -> Qt s) ->
  (forall s, P s -> canvas s = None -> Qt s) ->
  keeps P draw Qt.
Proof.
  intros Hst Hx Hc. unfold draw, SimObject_draw, Link_draw.
  repeat first
    [ apply keeps_bind; [|intros ?]
    | apply keeps_the_ctx; exact Hx
    | apply keeps_the_canvas; exact Hc
    | apply keeps_ctx_call; [exact Hst|exact Hx]
    | apply keeps_get
    | apply keeps_ret
    | apply keeps_if
    | apply keeps_for_of; intros ?
    | match goal with
      | |- keeps _ (match ?o with Some _ => _ | None => _ end) _ => destruct o
      end ].
Qed.

(** *** The loop of substeps *)

Lemma for_range_updates lo n dt s :
  for_range lo n (fun _ => update dt) s = updates (replicate n dt) s.
Proof.
  revert lo s. induction n as [|n IH]; intros lo s; [reflexivity|].
  simpl. unfold updates. simpl. unfold bind.
  destruct (update dt s) as [s' [[]|e]]; [apply IH|reflexivity].
Qed.

Lemma updates_return dts s :
  bounded s = false \/ is_Some (canvas s) ->
  exists s1,
    updates dts s = (s1, Normal tt) /\ s1 = set_objects (objects s1) s.
Proof.
  revert s. induction dts as [|dt dts IH]; intros s Hs.
  - exists s. split; [reflexivity|]. by destruct s.
  - assert (Hu : update dt s = (advance dt s, Normal tt)).
    { rewrite update_eq. destruct Hs as [->|[c ->]]; [reflexivity|].
      by destruct (bounded s). }
    destruct (IH (advance dt s)) as (s1 & H1 & E1); [exact Hs|].
    exists s1. split.
    + unfold updates. simpl. rewrite (bind_Normal _ _ _ _ _ Hu). exact H1.
    + rewrite E1 at 1. reflexivity.
Qed.

(** *** Integration *)

(** C6. One [updatePosition(dt)] of a free particle sets [position] to
    [position + (position - oldPosition) + accleration * (dt * dt)], sets
    [oldPosition] to the position it had before the call, and resets the
    accumulated acceleration to [(0, 0)]; its class, radius and mass are
    not touched. *)
Theorem updatePosition_free dt o :
  kind o = Free ->
  let o' := updatePosition dt o in
  position o' =
    Vec2_add (Vec2_add (position o) (Vec2_sub (position o) (oldPosition o)))
             (Vec2_scale (accleration o) (dt *. dt)) /\
  oldPosition o' = position o /\
  accleration o' = (#0, #0) /\
  kind o' = Free /\ radius o' = radius o /\ mass o' = mass o.
Proof.
  intros Hk. unfold updatePosition. rewrite Hk.
  unfold SimObject_updatePosition. cbn. rewrite Hk. repeat split.
Qed.

Lemma updatePosition_frozen dt o p :
  kind o = Frozen p -> anchored_at p (updatePosition dt o).
Proof.
  intros Hk. unfold updatePosition. rewrite Hk. repeat split. exact Hk.
Qed.

Lemma updatePosition_forgets dt q o :
  frozen o = true -> updatePosition dt (set_position q o) = updatePosition dt o.
Proof.
  unfold frozen, updatePosition. cbn. by destruct (kind o).
Qed.

Lemma new_FrozenSimObject_anchored pos r m :
  anchored_at pos (new_FrozenSimObject pos r m).
Proof. repeat split. Qed.

Lemma new_FrozenSimObject_at_rest pos r m :
  at_rest (new_FrozenSimObject pos r m).
Proof. intros p [= <-]. repeat split. Qed.

Lemma new_SimObject_at_rest pos r m : at_rest (new_SimObject pos r m).
Proof. intros p [=]. Qed.

Lemma foldl_at_rest {A} (f : Store * list Link -> A -> Store * list Link) xs :
  (forall st x, Forall at_rest st.1 -> Forall at_rest (f st x).1) ->
  forall st, Forall at_rest st.1 -> Forall at_rest (foldl f st xs).1.
Proof.
  intros Hf. induction xs as [|x xs IH]; intros st Hst; [exact Hst|].
  simpl. apply IH, Hf, Hst.
Qed.

(** Every scenario is constructed with its anchors at rest. *)
Lemma new_Simulation_at_rest ty : Forall at_rest (objects (new_Simulation ty)).
Proof.
  destruct ty; unfold new_Simulation; cbv zeta.
  - match goal with |- context [foldl ?f ?st ?xs] =>
      pose proof (foldl_at_rest f xs) as H; specialize (H ltac:(
        intros [objs lnks] i Ho; cbn;
        repeat apply Forall_app_2; try exact Ho;
        apply Forall_singleton, new_SimObject_at_rest) st);
      destruct (foldl f st xs) as [objs lnks] end.
    apply H, Forall_singleton, new_FrozenSimObject_at_rest.
  - match goal with |- context [foldl ?f ?st ?xs] =>
      pose proof (foldl_at_rest f xs) as H; specialize (H ltac:(
        intros [objs lnks] i Ho; unfold LongPendulum_body;
        destruct (last objs) as [prev|]; [|exact Ho];
        destruct (position prev); cbn;
        apply Forall_app_2; [exact Ho|];
        apply Forall_singleton, new_SimObject_at_rest) st);
      destruct (foldl f st xs) as [objs lnks] end.
    cbn. apply Forall_alter.
    + apply H, Forall_singleton, new_FrozenSimObject_at_rest.
    + intros o _ Ho p Hk. exact (Ho p Hk).
  - constructor.
Qed.

(** *** Links between anchors *)

Lemma Link_apply_frozen_a l (objs : Store) oa ob :
  objs !! Link_a l = Some oa ->
  objs !! Link_b l = Some ob ->
  frozen oa = true ->
  Link_apply l objs =
    alter (set_position
             (Vec2_sub (position ob)
                (Link_delta (position oa) (position ob) (Link_target l))))
          (Link_b l) objs.
Proof.
  intros Ha Hb Hf. unfold Link_apply. rewrite Ha, Hb. cbv zeta.
  by rewrite Hf.
Qed.

Lemma Link_apply_frozen_b l (objs : Store) oa ob :
  objs !! Link_a l = Some oa ->
  objs !! Link_b l = Some ob ->
  frozen oa = false ->
  frozen ob = true ->
  Link_apply l objs =
    alter (set_position
             (Vec2_add (position oa)
                (Link_delta (position oa) (position ob) (Link_target l))))
          (Link_a l) objs.
Proof.
  intros Ha Hb Hfa Hfb. unfold Link_apply. rewrite Ha, Hb. cbv zeta.
  by rewrite Hfa, Hfb.
Qed.

(** C3, as the code has it. When both ends of a link are anchored,
    [apply()] takes the branch of a frozen [a]: it leaves every object
    other than [b] as it is, and changes of [b] only the position, from
    which it subtracts [delta]. The [updatePosition] of [b] that ends the
    substep does not depend on that position. *)
Theorem Link_apply_both_anchored l (objs : Store) oa ob :
  objs !! Link_a l = Some oa ->
  objs !! Link_b l = Some ob ->
  frozen oa = true ->
  frozen ob = true ->
  let delta := Link_delta (position oa) (position ob) (Link_target l) in
  let ob' := set_position (Vec2_sub (position ob) delta) ob in
  Link_apply l objs !! Link_b l = Some ob' /\
  (forall i, i <> Link_b l -> Link_apply l objs !! i = objs !! i) /\
  (forall dt, updatePosition dt ob' = updatePosition dt ob).
Proof.
  intros Ha Hb Hfa Hfb delta ob'.
  rewrite (Link_apply_frozen_a l objs oa ob Ha Hb Hfa).
  split; [|split].
  - rewrite list_lookup_alter_eq, Hb. reflexivity.
  - intros i Hi. apply list_lookup_alter_ne. congruence.
  - intros dt. apply updatePosition_forgets. exact Hfb.
Qed.

(** *** Anchors *)

Lemma advance_anchored i p dt s :
  (exists o, objects s !! i = Some o /\ kind o = Frozen p) ->
  exists o, objects (advance dt s) !! i = Some o /\ anchored_at p o.
Proof.
  intros (o & Hi & Hk).
  destruct (shape_before_integration dt s) as (Y & HY & Hkinds & _).
  assert (HYi : kind <$> Y !! i = Some (Frozen p)).
  { rewrite <- list_lookup_fmap, Hkinds, list_lookup_fmap, Hi. simpl.
    by rewrite Hk. }
  destruct (Y !! i) as [y|] eqn:Hy; [|discriminate].
  exists (updatePosition dt y). split.
  - unfold advance. cbn. rewrite HY. unfold updatePositions.
    rewrite list_lookup_fmap, Hy. reflexivity.
  - apply updatePosition_frozen. simpl in HYi. congruence.
Qed.

Lemma update_anchored i p dt :
  let P s := exists o, objects s !! i = Some o /\ anchored_at p o in
  keeps P (update dt) P.
Proof.
  intros P. apply keeps_update.
  - intros s (o & Hi & Hk & _). apply advance_anchored. eauto.
  - intros s (o & Hi & Hk & Hp & Ho) _. exists (accelerate (gravity s) o).
    split; [|repeat split; assumption].
    cbn. unfold applyGravity. rewrite list_lookup_fmap, Hi. reflexivity.
Qed.

(** C7. An anchored particle that rests on its anchor, as its constructor
    leaves it, rests on it after any number of [update(dt)] calls, whatever
    the gravity, the flags, the links and the other particles of the scene
    are; this also holds of the state an [update] leaves when it throws. *)
Theorem anchor_invariance s i o p dts :
  objects s !! i = Some o ->
  anchored_at p o ->
  exists o', objects (updates dts s).1 !! i = Some o' /\ anchored_at p o'.
Proof.
  intros Hi Ho.
  apply (triple_fst
           (fun s => exists o, objects s !! i = Some o /\ anchored_at p o)).
  - apply keeps_for_of. intros dt. apply update_anchored.
  - eauto.
Qed.

(** *** One tick *)

Lemma step_eq t h r s :
  step t h r s =
    let dt := step_dt (Simulation_t s) t in
    (for_range 0 substeps (fun _ => update (step_subDt dt)) ;;
     after_substeps t dt h r) (set_t (Some t) s).
Proof. reflexivity. Qed.

Lemma start_eq c h r s :
  start c h r s =
    step #0 h r
      (set_playing true
         (if c is Some cv
          then set_ctx (getContext_2d cv) (set_canvas (Some cv) s)
          else s)).
Proof. by destruct c. Qed.

Lemma spawn_cases t dt r s :
  spawn t dt r s = (s, Normal tt) \/
  (simType s = BoundedObjects /\ length (objects s) < 100 /\
   exists o, spawn t dt r s = (set_objects (objects s ++ [o]) s, Normal tt)).
Proof.
  unfold spawn, bind, get, modify, ret.
  destruct (simType s) eqn:Hty; simpl; auto.
  destruct (nrem t #500 <. dt *. #1000); simpl; auto.
  destruct (length (objects s) <? 100) eqn:Hlt; simpl; auto.
  right. apply Nat.ltb_lt in Hlt. eauto.
Qed.

Lemma triple_after_substeps P Qn Qt t dt h r :
  ctx_stable P ->
  (forall s x, P s -> P (set_id x s)) ->
  (forall s, P s -> ctx s = None -> Qt s) ->
  (forall s, P s -> canvas s = None -> Qt s) ->
  triple P (spawn t dt r) (fun _ => Qn) Qt ->
  triple P (after_substeps t dt h r) (fun _ => Qn) Qt.
Proof.
  intros Hst Hid Hx Hc Hsp. unfold after_substeps.
  eapply triple_bind; [apply keeps_draw; assumption|intros ?].
  do 3 (eapply triple_bind; [apply keeps_ctx_call; assumption|intros ?]).
  eapply triple_bind; [apply keeps_get|intros p].
  eapply triple_bind; [|intros ?; exact Hsp].
  apply keeps_if; [apply keeps_modify; intros s; apply Hid|apply keeps_ret].
Qed.

(** A tick changes the number of objects by what [spawn] appends. *)
Lemma step_count t h r s :
  let n := length (objects s) in
  let n' := length (objects (step t h r s).1) in
  n' = n \/ (n < 100 /\ n' = S n).
Proof.
  intros n n'. subst n'. rewrite step_eq. cbv zeta.
  set (P := fun s' : Simulation => length (objects s') = n).
  set (Q := fun s' : Simulation =>
              length (objects s') = n \/
              (n < 100 /\ length (objects s') = S n)).
  apply (triple_fst P _ Q); [|reflexivity].
  assert (HPQ : forall s', P s' -> Q s') by (intros s' Hs'; by left).
  eapply triple_bind.
  - apply keeps_for_range. intros _. apply keeps_update.
    + intros s' Hs'. unfold P, advance. cbn. by rewrite substep_length.
    + intros s' Hs' _. apply HPQ. unfold P. cbn. unfold applyGravity.
      by rewrite length_fmap.
  - intros ?. apply triple_after_substeps; auto.
    + intros s' c Hs'. exact Hs'.
    + intros s' Hs'. unfold P in Hs'.
      destruct (spawn_cases t (step_dt (Simulation_t s) t) r s')
        as [->|(_ & Hlt & o & ->)].
      * by left.
      * right. cbn. rewrite length_app. simpl. lia.
Qed.

Lemma step_t t h r s : Simulation_t (step t h r s).1 = Some t.
Proof.
  rewrite step_eq. cbv zeta.
  set (P := fun s' : Simulation => Simulation_t s' = Some t).
  apply (triple_fst P _ P); [|reflexivity].
  eapply triple_bind.
  - apply keeps_for_range. intros _. apply keeps_update; intros; assumption.
  - intros ?. apply triple_after_substeps; auto.
    + intros s' c Hs'. exact Hs'.
    + intros s' Hs'.
      destruct (spawn_cases t (step_dt (Simulation_t s) t) r s')
        as [->|(_ & _ & o & ->)]; exact Hs'.
Qed.

(** With a drawing surface attached, a tick returns, after [substeps]
    calls of [update] that all return. *)
Lemma step_attached t h r s :
  attached s ->
  let subDt := step_subDt (step_dt (Simulation_t s) t) in
  exists s1 s',
    updates (replicate substeps subDt) (set_t (Some t) s) = (s1, Normal tt) /\
    step t h r s = (s', Normal tt) /\
    (objects s' = objects s1 \/ exists o, objects s' = objects s1 ++ [o]).
Proof.
  intros [Hc Hx] subDt.
  destruct (updates_return (replicate substeps subDt) (set_t (Some t) s))
    as (s1 & H1 & E1); [by right|].
  set (P := fun s' : Simulation => attached s' /\ objects s' = objects s1).
  set (Q := fun s' : Simulation =>
              objects s' = objects s1 \/
              exists o, objects s' = objects s1 ++ [o]).
  assert (HP : P s1).
  { split; [|reflexivity]. rewrite E1. split; assumption. }
  assert (HT : triple P
                 (after_substeps t (step_dt (Simulation_t s) t) h r)
                 (fun _ => Q) (fun _ => False)).
  { apply triple_after_substeps.
    - intros s' c [[Hc' _] Ho]. split; [split|]; [exact Hc'|by eexists|exact Ho].
    - intros s' x Hs'. exact Hs'.
    - intros s' [[_ [c Hx']] _] Hn. cbn in Hn; congruence.
    - intros s' [[[c Hc'] _] _] Hn. cbn in Hn; congruence.
    - intros s' [_ Ho].
      destruct (spawn_cases t (step_dt (Simulation_t s) t) r s')
        as [->|(_ & _ & o & ->)]; [by left|].
      right. exists o. cbn. by rewrite Ho. }
  specialize (HT s1 HP).
  exists s1. rewrite step_eq. cbv zeta. fold subDt.
  rewrite (bind_Normal _ _ _ s1 tt);
    [|rewrite for_range_updates; exact H1].
  destruct (after_substeps _ _ _ _ s1) as [s' [[]|e]]; [|contradiction].
  exists s'. auto.
Qed.

(** Unless the scene is bounded and has no canvas, the [substeps] calls of
    [update] of a tick all return, and the tick leaves the objects that they
    leave, with at most one spawned object after them. *)
Lemma step_runs_substeps t h r s :
  bounded s = false \/ is_Some (canvas s) ->
  let subDt := step_subDt (step_dt (Simulation_t s) t) in
  exists s1,
    updates (replicate substeps subDt) (set_t (Some t) s) = (s1, Normal tt) /\
    (objects (step t h r s).1 = objects s1 \/
     exists o, objects (step t h r s).1 = objects s1 ++ [o]).
Proof.
  intros Hs subDt.
  destruct (updates_return (replicate substeps subDt) (set_t (Some t) s))
    as (s1 & H1 & _); [exact Hs|].
  exists s1. split; [exact H1|].
  rewrite step_eq. cbv zeta. fold subDt.
  rewrite (bind_Normal _ _ _ s1 tt);
    [|rewrite for_range_updates; exact H1].
  set (P := fun s' : Simulation => objects s' = objects s1).
  set (Q := fun s' : Simulation =>
              objects s' = objects s1 \/
              exists o, objects s' = objects s1 ++ [o]).
  apply (triple_fst P _ Q); [|reflexivity].
  assert (HPQ : forall s', P s' -> Q s') by (intros s' Hs'; by left).
  apply triple_after_substeps; auto.
  - intros s' c Hs'. exact Hs'.
  - intros s' Hs'.
    destruct (spawn_cases t (step_dt (Simulation_t s) t) r s')
      as [->|(_ & _ & o & ->)]; [by left|].
    right. exists o. cbn. by rewrite Hs'.
Qed.

(** Without a drawing surface, a tick throws: in the first substep when
    the scene is bounded, and when it draws otherwise. *)
Lemma step_detached t h r s :
  canvas s = None ->
  ctx s = None ->
  let subDt := step_subDt (step_dt (Simulation_t s) t) in
  let s0 := set_t (Some t) s in
  if bounded s then
    step t h r s =
      (set_objects (applyGravity (gravity s) (objects s)) s0, Throw TypeError)
  else
    exists s1,
      updates (replicate substeps subDt) s0 = (s1, Normal tt) /\
      step t h r s = (s1, Throw TypeError).
Proof.
  intros Hc Hx subDt s0. rewrite step_eq. cbv zeta. fold subDt s0.
  destruct (bounded s) eqn:Hb.
  - apply bind_Throw. change substeps with (S (Nat.pred substeps)).
    cbn [for_range]. apply bind_Throw. rewrite update_eq.
    cbn. by rewrite Hb, Hc.
  - destruct (updates_return (replicate substeps subDt) s0)
      as (s1 & H1 & E1); [by left|].
    exists s1. split; [exact H1|].
    rewrite (bind_Normal _ _ _ s1 tt);
      [|rewrite for_range_updates; exact H1].
    unfold after_substeps. apply bind_Throw. unfold draw.
    apply bind_Throw. unfold the_ctx. rewrite E1. cbn. by rewrite Hx.
Qed.

(** *** Starting without a drawing surface *)

(** C5, as the code has it. [start()] on a simulation that has never been
    given a canvas does not return: it throws a [TypeError]. It throws after
    it has set [playing] and [t] and has run simulation work: in a bounded
    scene, after the first substep has applied gravity to every object, when
    [applyConstraint] reads the canvas; otherwise after all the substeps
    have run and returned, when [draw] reads the context. *)
Theorem start_without_canvas s h r :
  canvas s = None ->
  ctx s = None ->
  let subDt := step_subDt (step_dt (Simulation_t s) #0) in
  let s0 := set_t (Some #0) (set_playing true s) in
  if bounded s then
    start None h r s =
      (set_objects (applyGravity (gravity s) (objects s)) s0, Throw TypeError)
  else
    exists s1,
      updates (replicate substeps subDt) s0 = (s1, Normal tt) /\
      start None h r s = (s1, Throw TypeError).
Proof.
  intros Hc Hx. rewrite start_eq.
  exact (step_detached #0 h r (set_playing true s) Hc Hx).
Qed.

(** *** The spawn cap *)

Lemma fire_count s e :
  let n := length (objects s) in
  let n' := length (objects (fire s e)) in
  n' = n \/ (n < 100 /\ n' = S n).
Proof.
  destruct e as [t h r|c h r| | |]; cbn [fire]; try by left.
  - apply step_count.
  - rewrite start_eq.
    pose proof (step_count #0 h r
      (set_playing true
         (if c is Some cv
          then set_ctx (getContext_2d cv) (set_canvas (Some cv) s)
          else s))) as H.
    by destruct c.
Qed.

Lemma run_count evs s :
  length (objects s) <= 100 -> length (objects (run evs s)) <= 100.
Proof.
  revert s. induction evs as [|e evs IH]; intros s Hs; [exact Hs|].
  apply IH. pose proof (fire_count s e) as H. cbv zeta in H. lia.
Qed.

(** C9. In the bounded-objects scenario, whatever ticks, starts, stops and
    flag changes happen, the scene has at most 100 objects; and a tick
    either leaves the number of objects as it is or, only when there are
    fewer than 100, appends one. *)
Theorem spawn_cap evs :
  let s := run evs (new_Simulation BoundedObjects) in
  length (objects s) <= 100 /\
  forall t handle random,
    let n' := length (objects (step t handle random s).1) in
    n' = length (objects s) \/
    (length (objects s) < 100 /\ n' = S (length (objects s))).
Proof.
  split.
  - apply run_count. cbn. lia.
  - intros t h r. apply step_count.
Qed.

Lemma new_Simulation_t ty : Simulation_t (new_Simulation ty) = None.
Proof.
  destruct ty; unfold new_Simulation; cbv zeta;
    repeat match goal with |- context [let '(_, _) := ?p in _] =>
      destruct p end; reflexivity.
Qed.

Lemma LongPendulum_anchor :
  objects (new_Simulation LongPendulum) !! 0 =
    Some (new_FrozenSimObject (#300, #200) (Some #5) None).
Proof. reflexivity. Qed.

(** *** Links between free objects *)

Lemma Link_apply_free l (objs : Store) oa ob :
  objs !! Link_a l = Some oa ->
  objs !! Link_b l = Some ob ->
  Link_a l <> Link_b l ->
  frozen oa = false ->
  frozen ob = false ->
  let delta := Link_delta (position oa) (position ob) (Link_target l) in
  let deltaA := Vec2_scale delta (mass oa /. (mass oa +. mass ob)) in
  let deltaB := Vec2_sub delta deltaA in
  Link_apply l objs !! Link_a l =
    Some (set_position (Vec2_add (position oa) deltaB) oa) /\
  Link_apply l objs !! Link_b l =
    Some (set_position (Vec2_sub (position ob) deltaA) ob) /\
  (forall i, i <> Link_a l -> i <> Link_b l ->
     Link_apply l objs !! i = objs !! i).
Proof.
  intros Ha Hb Hab Hfa Hfb delta deltaA deltaB.
  unfold Link_apply. rewrite Ha, Hb. cbv zeta. rewrite Hfa, Hfb.
  fold (Link_delta (position oa) (position ob) (Link_target l)).
  fold delta. fold deltaA. fold deltaB.
  rewrite list_lookup_alter_ne, Hb by exact Hab.
  split; [|split].
  - rewrite list_lookup_alter_ne by congruence.
    rewrite list_lookup_alter_eq, Ha. reflexivity.
  - rewrite list_lookup_alter_eq, list_lookup_alter_ne, Hb by exact Hab.
    reflexivity.
  - intros i Hia Hib. rewrite !list_lookup_alter_ne by congruence.
    reflexivity.
Qed.

(** *** Coincident objects in collision resolution *)

Lemma collide_coincident i j (objs : Store) a b :
  objs !! i = Some a ->
  objs !! j = Some b ->
  (Vec2_length (Vec2_sub (position a) (position b)) === #0) = true ->
  collide i j objs = objs.
Proof.
  intros Hi Hj Hd. unfold collide. rewrite Hi, Hj. cbv zeta. by rewrite Hd.
Qed.

End Laws.

(** ** Facts of exact arithmetic *)

Module ExactFacts.
Import Exact.
#[local] Existing Instance R_Number.
#[local] Existing Instance R_NumberExt.
#[local] Arguments IZR : simpl never.
Local Open Scope R_scope.

Lemma length_nonneg (v : Vec2) : 0 <= Vec2_length v.
Proof. apply sqrt_pos. Qed.

Lemma length_scale (v : Vec2) (k : R) :
  Vec2_length (Vec2_scale v k) = Rabs k * Vec2_length v.
Proof.
  destruct v as [x y]. unfold Vec2_length, Vec2_scale. cbn.
  replace (x * k * (x * k) + y * k * (y * k)) with (Rsqr k * (x * x + y * y))
    by (unfold Rsqr; ring).
  rewrite sqrt_mult; [|apply Rle_0_sqr|nra].
  by rewrite sqrt_Rsqr_abs.
Qed.

Lemma length_zero (pa pb : Vec2) : Vec2_length (Vec2_sub pb pa) = 0 -> pa = pb.
Proof.
  destruct pa as [xa ya], pb as [xb yb]. unfold Vec2_length, Vec2_sub. cbn.
  intros H.
  apply sqrt_eq_0 in H; [|apply Rplus_le_le_0_compat; apply Rle_0_sqr].
  destruct (Rplus_sqr_eq_0 (xb - xa) (yb - ya) H) as [Hx Hy].
  f_equal; lra.
Qed.

Lemma length_delta (pa pb : Vec2) (target : R) :
  pa <> pb ->
  Vec2_length (Link_delta pa pb target) =
    Rabs (Vec2_length (Vec2_sub pb pa) - target).
Proof.
  intros Hne. unfold Link_delta. cbv zeta. rewrite !length_scale.
  pose proof (length_nonneg (Vec2_sub pb pa)) as H0.
  assert (Hd : Vec2_length (Vec2_sub pb pa) <> 0)
    by (intros H; apply Hne, length_zero, H).
  remember (Vec2_length (Vec2_sub pb pa)) as d eqn:Ed. clear Ed. cbn.
  rewrite (Rabs_pos_eq (1 / d)).
  - field. exact Hd.
  - apply Rlt_le, Rdiv_lt_0_compat; lra.
Qed.

Lemma scale_split (delta : Vec2) (ma mb : R) :
  ma + mb <> 0 ->
  Vec2_sub delta (Vec2_scale delta (ma / (ma + mb))) =
    Vec2_scale delta (mb / (ma + mb)).
Proof.
  intros H. destruct delta as [x y]. unfold Vec2_sub, Vec2_scale. cbn.
  f_equal; field; exact H.
Qed.

Lemma add_sub_cancel (p d : Vec2) : Vec2_sub (Vec2_add p d) p = d.
Proof.
  destruct p, d. unfold Vec2_sub, Vec2_add. cbn. f_equal; ring.
Qed.

Lemma sub_sub_cancel (p d : Vec2) :
  Vec2_sub (Vec2_sub p d) p = Vec2_scale d (-1).
Proof.
  destruct p, d. unfold Vec2_sub, Vec2_scale. cbn. f_equal; ring.
Qed.

Lemma scale_scale (v : Vec2) (k k' : R) :
  Vec2_scale (Vec2_scale v k) k' = Vec2_scale v (k * k').
Proof. destruct v. unfold Vec2_scale. cbn. f_equal; ring. Qed.

(** *** The mass-weighted split *)

(** C1, as the code has it. Between two free ends at different positions,
    with positive masses, [apply()] adds
    [delta * massB / (massA + massB)] to the position of A and subtracts
    [delta * massA / (massA + massB)] from the position of B, with
    [delta = normal * (distance - target)]: each end moves in proportion to
    the mass of the other, so the heavier end moves less. *)
Theorem Link_apply_split l (objs : Store) oa ob :
  objs !! Link_a l = Some oa ->
  objs !! Link_b l = Some ob ->
  position oa <> position ob ->
  frozen oa = false ->
  frozen ob = false ->
  0 < mass oa ->
  0 < mass ob ->
  let delta := Link_delta (position oa) (position ob) (Link_target l) in
  let moveA := Vec2_scale delta (mass ob / (mass oa + mass ob)) in
  let moveB := Vec2_scale delta (mass oa / (mass oa + mass ob)) in
  Link_apply l objs !! Link_a l =
    Some (set_position (Vec2_add (position oa) moveA) oa) /\
  Link_apply l objs !! Link_b l =
    Some (set_position (Vec2_sub (position ob) moveB) ob) /\
  (mass ob <= mass oa -> Vec2_length moveA <= Vec2_length moveB).
Proof.
  intros Ha Hb Hne Hfa Hfb Hma Hmb delta moveA moveB.
  assert (Hab : Link_a l <> Link_b l).
  { intros E. rewrite E, Hb in Ha. congruence. }
  destruct (Link_apply_free l objs oa ob Ha Hb Hab Hfa Hfb) as (HA & HB & _).
  split; [|split].
  - rewrite HA. cbn. rewrite scale_split by lra. reflexivity.
  - exact HB.
  - intros Hle. unfold moveA, moveB. rewrite !length_scale.
    apply Rmult_le_compat_r; [apply length_nonneg|].
    assert (Hi : 0 < / (mass oa + mass ob)) by (apply Rinv_0_lt_compat; lra).
    rewrite !Rabs_pos_eq; unfold Rdiv; nra.
Qed.

(** C2. For a link between two free particles at different positions, with
    [massA = 3 * massB] (and a mass that is not zero), one [apply()] moves A
    by a quarter of [|distance - target|] and B by three quarters of it. *)
Theorem Link_apply_quarters l (objs : Store) oa ob :
  objs !! Link_a l = Some oa ->
  objs !! Link_b l = Some ob ->
  frozen oa = false ->
  frozen ob = false ->
  mass oa = 3 * mass ob ->
  mass ob <> 0 ->
  position oa <> position ob ->
  let correction :=
    Rabs (Vec2_length (Vec2_sub (position ob) (position oa))
          - Link_target l) in
  exists oa' ob',
    Link_apply l objs !! Link_a l = Some oa' /\
    Link_apply l objs !! Link_b l = Some ob' /\
    Vec2_length (Vec2_sub (position oa') (position oa)) = correction / 4 /\
    Vec2_length (Vec2_sub (position ob') (position ob)) = 3 * correction / 4.
Proof.
  intros Ha Hb Hfa Hfb Hm Hmb Hne correction.
  assert (Hab : Link_a l <> Link_b l).
  { intros E. rewrite E, Hb in Ha. congruence. }
  destruct (Link_apply_free l objs oa ob Ha Hb Hab Hfa Hfb) as (HA & HB & _).
  eexists _, _. split; [exact HA|]. split; [exact HB|].
  assert (Hs : mass oa + mass ob <> 0) by lra.
  cbn [position set_position].
  rewrite add_sub_cancel, sub_sub_cancel.
  change (@nadd R_Number) with Rplus. change (@ndiv R_Number) with Rdiv.
  rewrite scale_split by exact Hs.
  rewrite scale_scale, !length_scale, (length_delta _ _ _ Hne).
  fold correction. rewrite Hm.
  replace (mass ob / (3 * mass ob + mass ob)) with (1 / 4) by (field; lra).
  replace (3 * mass ob / (3 * mass ob + mass ob) * -1) with (- (3 / 4))
    by (field; lra).
  rewrite Rabs_Ropp, !Rabs_pos_eq by lra.
  split; lra.
Qed.

(** *** The examples *)

(** From the origin to [(8, 0)] with target length 4, [delta] is
    [(4, 0)]. *)
Lemma delta_8_4 : Link_delta (N := R_Number) (0, 0) (8, 0) 4 = (4, 0).
Proof.
  unfold Link_delta, Vec2_length, Vec2_scale, Vec2_sub. cbn.
  replace ((8 - 0) * (8 - 0) + (0 - 0) * (0 - 0)) with (8 * 8) by ring.
  rewrite sqrt_square by lra. f_equal; field.
Qed.

(** C1: the split as the specification writes it fails on the code. With A
    of mass 3 at the origin, B of mass 1 at [(8, 0)] and target length 4,
    [delta] is [(4, 0)]; the stated formula puts A at [(3, 0)], and the code
    puts it at [(1, 0)]. *)
Lemma stated_split_fails :
  exists oa ob oa',
    heavy_light !! 0%nat = Some oa /\
    heavy_light !! 1%nat = Some ob /\
    frozen oa = false /\ frozen ob = false /\
    Link_apply link_0_1 heavy_light !! 0%nat = Some oa' /\
    position oa' = (1, 0) /\
    (stated_split oa ob (Link_target link_0_1)).1 = (3, 0) /\
    position oa' <> (stated_split oa ob (Link_target link_0_1)).1.
Proof.
  eexists _, _, _.
  split; [reflexivity|]. split; [reflexivity|].
  split; [reflexivity|]. split; [reflexivity|].
  split.
  { refine (proj1 (Link_apply_free link_0_1 heavy_light _ _ _ _ _ _ _));
      first [reflexivity | discriminate]. }
  assert (H1 : forall k : R,
    Vec2_add (N := R_Number) (0, 0)
      (Vec2_sub (Link_delta (0, 0) (8, 0) 4)
                (Vec2_scale (Link_delta (0, 0) (8, 0) 4) k))
    = (0 + (4 - 4 * k), 0 + (0 - 0 * k))).
  { intros k. rewrite delta_8_4. reflexivity. }
  assert (H3 : forall k : R,
    Vec2_add (N := R_Number) (0, 0)
      (Vec2_scale (Link_delta (0, 0) (8, 0) 4) k)
    = (0 + 4 * k, 0 + 0 * k)).
  { intros k. rewrite delta_8_4. reflexivity. }
  cbn [position set_position]. unfold stated_split. cbn -[Link_delta].
  rewrite H1, H3.
  split; [f_equal; field|]. split; [f_equal; field|].
  intros H. apply (f_equal fst) in H. cbn in H. lra.
Qed.

(** C3: a link between two anchored objects moves the second one. With
    anchors at the origin and at [(8, 0)] and target length 4, [apply()]
    puts the second anchor at [(4, 0)]. *)
Lemma anchored_link_moves_b :
  exists oa ob ob',
    two_anchors !! 0%nat = Some oa /\
    two_anchors !! 1%nat = Some ob /\
    frozen oa = true /\ frozen ob = true /\
    Link_apply link_0_1 two_anchors !! 1%nat = Some ob' /\
    position ob = (8, 0) /\
    position ob' = (4, 0) /\
    position ob' <> position ob.
Proof.
  eexists _, _, _.
  split; [reflexivity|]. split; [reflexivity|].
  split; [reflexivity|]. split; [reflexivity|].
  split.
  { rewrite (Link_apply_frozen_a link_0_1 two_anchors _ _ eq_refl eq_refl
               eq_refl).
    reflexivity. }
  assert (H : Vec2_sub (N := R_Number) (8, 0) (Link_delta (0, 0) (8, 0) 4)
              = (8 - 4, 0 - 0)).
  { rewrite delta_8_4. reflexivity. }
  cbn -[Link_delta]. rewrite H.
  split; [reflexivity|]. split; [f_equal; ring|].
  intros E. apply (f_equal fst) in E. cbn in E. lra.
Qed.

(** C5: [start()] without a canvas runs simulation work before it fails.
    On the long pendulum with [bounded] set, it throws from the first
    substep, after gravity has been added to the acceleration of every
    object: the objects are not what they were. *)
Lemma start_without_canvas_works_first :
  canvas bounded_pendulum = None /\
  ctx bounded_pendulum = None /\
  exists s',
    start None 0%nat 0 bounded_pendulum = (s', Throw TypeError) /\
    playing s' = true /\
    objects s' <> objects bounded_pendulum.
Proof.
  split; [reflexivity|]. split; [reflexivity|].
  eexists. split; [|split].
  - rewrite start_eq.
    exact (step_detached (lit 0%Z) 0%nat 0
             (set_playing true bounded_pendulum) eq_refl eq_refl).
  - reflexivity.
  - intros H. apply (f_equal (fun l : Store => accleration <$> l !! 0%nat)) in H.
    change (objects bounded_pendulum)
      with (objects (new_Simulation LongPendulum)) in H.
    cbn [objects set_objects set_t set_playing] in H.
    unfold applyGravity in H.
    rewrite list_lookup_fmap, LongPendulum_anchor in H.
    cbn in H. injection H as _ H. lra.
Qed.

(** The split, on the heavy and the light object. *)
Lemma Link_apply_split_witness :
  (position heavy <> position light /\ 0 < mass heavy /\ 0 < mass light) /\
  Link_apply link_0_1 heavy_light !! 0%nat =
    Some (set_position
            (Vec2_add (position heavy)
               (Vec2_scale
                  (Link_delta (position heavy) (position light) 4)
                  (mass light / (mass heavy + mass light)))) heavy) /\
  Link_apply link_0_1 heavy_light !! 1%nat =
    Some (set_position
            (Vec2_sub (position light)
               (Vec2_scale
                  (Link_delta (position heavy) (position light) 4)
                  (mass heavy / (mass heavy + mass light)))) light) /\
  (mass light <= mass heavy ->
   Vec2_length
     (Vec2_scale (Link_delta (position heavy) (position light) 4)
        (mass light / (mass heavy + mass light))) <=
   Vec2_length
     (Vec2_scale (Link_delta (position heavy) (position light) 4)
        (mass heavy / (mass heavy + mass light)))).
Proof.
  assert (Hh : 0 < mass heavy) by (cbn; lra).
  assert (Hl : 0 < mass light) by (cbn; lra).
  assert (Hp : position heavy <> position light).
  { intros H. apply (f_equal fst) in H. cbn in H. lra. }
  split; [repeat split; assumption|].
  apply (Link_apply_split link_0_1 heavy_light heavy light);
    first [reflexivity | assumption].
Defined.

(** The quarters, on the heavy and the light object. *)
Lemma Link_apply_quarters_witness :
  (mass heavy = 3 * mass light /\ mass light <> 0 /\
   position heavy <> position light) /\
  exists oa' ob',
    Link_apply link_0_1 heavy_light !! 0%nat = Some oa' /\
    Link_apply link_0_1 heavy_light !! 1%nat = Some ob' /\
    Vec2_length (Vec2_sub (position oa') (position heavy)) =
      Rabs (Vec2_length (Vec2_sub (position light) (position heavy)) - 4) / 4 /\
    Vec2_length (Vec2_sub (position ob') (position light)) =
      3 * Rabs (Vec2_length (Vec2_sub (position light) (position heavy)) - 4)
      / 4.
Proof.
  assert (Hm : mass heavy = 3 * mass light) by (cbn; lra).
  assert (Hl : mass light <> 0) by (cbn; lra).
  assert (Hp : position heavy <> position light).
  { intros H. apply (f_equal fst) in H. cbn in H. lra. }
  split; [repeat split; assumption|].
  apply (Link_apply_quarters link_0_1 heavy_light heavy light);
    first [reflexivity | assumption].
Defined.

(** [start()] on the bounded long pendulum, which has no canvas. *)
Lemma start_without_canvas_witness :
  (canvas bounded_pendulum = None /\ ctx bounded_pendulum = None) /\
  start None 0%nat 0 bounded_pendulum =
    (set_objects
       (applyGravity (gravity bounded_pendulum) (objects bounded_pendulum))
       (set_t (Some 0) (set_playing true bounded_pendulum)),
     Throw TypeError).
Proof.
  split; [split; reflexivity|].
  exact (start_without_canvas bounded_pendulum 0%nat 0 eq_refl eq_refl).
Defined.

(** *** The tick *)

Lemma step_dt_zero (t : R) : step_dt (Some 0) t = 0.
Proof.
  unfold step_dt. cbn. destruct (Req_dec_T 0 0); [|contradiction]. lra.
Qed.

Lemma step_dt_fresh (t : R) : step_dt None t = 0.
Proof. unfold step_dt. cbn. lra. Qed.

Lemma step_dt_elapsed (p t : R) : p <> 0 -> step_dt (Some p) t = (t - p) / 1000.
Proof.
  intros Hp. unfold step_dt. cbn. by destruct (Req_dec_T p 0).
Qed.

Lemma step_subDt_eq (dt : R) : step_subDt dt = Rmin dt (1 / 50) / 1000.
Proof. reflexivity. Qed.

Lemma step_subDt_zero : step_subDt 0 = 0.
Proof.
  rewrite step_subDt_eq. rewrite Rmin_left by lra. lra.
Qed.


(** C10. A tick whose stored timestamp is [0] computes [dtWall = 0],
    because [0] is falsy in [this.t || t]. On a new simulation, the tick
    that [start] performs at [t = 0] computes [dtWall = 0] and stores [0],
    so the tick that follows computes [dtWall = 0] too, whatever its
    timestamp is; and a tick with [dtWall = 0] simulates no time. *)
Theorem first_two_ticks_simulate_nothing :
  (forall t, step_dt (Some 0) t = 0) /\
  step_subDt 0 = 0 /\
  forall ty c handle random,
    let s0 := new_Simulation ty in
    let s1 := (start c handle random s0).1 in
    step_dt (Simulation_t s0) 0 = 0 /\
    Simulation_t s1 = Some 0 /\
    forall t, step_dt (Simulation_t s1) t = 0.
Proof.
  split; [exact step_dt_zero|]. split; [exact step_subDt_zero|].
  intros ty c handle random s0 s1.
  assert (H1 : Simulation_t s1 = Some 0).
  { unfold s1. rewrite start_eq. exact (step_t (lit 0%Z) handle random _). }
  split; [|split].
  - unfold s0. rewrite new_Simulation_t. apply step_dt_fresh.
  - exact H1.
  - intros t. rewrite H1. apply step_dt_zero.
Qed.

End ExactFacts.

(** ** Facts of floating point arithmetic *)

Module IEEEFacts.
Import IEEE.
#[local] Existing Instance float_Number.

Lemma nonfinite_mul_l x y :
  nonfinite x = true -> nonfinite (x * y)%float = true.
Proof.
  unfold nonfinite. rewrite mul_spec.
  destruct (Prim2SF x); try discriminate; intros _;
    destruct (Prim2SF y); reflexivity.
Qed.

Lemma nonfinite_mul_r x y :
  nonfinite y = true -> nonfinite (x * y)%float = true.
Proof.
  unfold nonfinite. rewrite mul_spec.
  destruct (Prim2SF y); try discriminate; intros _;
    destruct (Prim2SF x); reflexivity.
Qed.

Lemma nonfinite_add_r x y :
  nonfinite y = true -> nonfinite (x + y)%float = true.
Proof.
  unfold nonfinite. rewrite add_spec.
  destruct (Prim2SF y) as [| [] | |]; try discriminate; intros _;
    destruct (Prim2SF x) as [| [] | |]; reflexivity.
Qed.

Lemma nonfinite_sub_l x y :
  nonfinite x = true -> nonfinite (x - y)%float = true.
Proof.
  unfold nonfinite. rewrite sub_spec.
  destruct (Prim2SF x) as [| [] | |]; try discriminate; intros _;
    destruct (Prim2SF y) as [| [] | |]; reflexivity.
Qed.

Lemma nonfinite_sub_r x y :
  nonfinite y = true -> nonfinite (x - y)%float = true.
Proof.
  unfold nonfinite. rewrite sub_spec.
  destruct (Prim2SF y) as [| [] | |]; try discriminate; intros _;
    destruct (Prim2SF x) as [| [] | |]; reflexivity.
Qed.

(** Dividing 1 by a number that [===] 0, which is [0] or [-0], gives an
    infinity. *)
Lemma one_over_zero x :
  PrimFloat.eqb x 0 = true -> nonfinite (1 / x)%float = true.
Proof.
  rewrite FloatAxioms.eqb_spec. unfold nonfinite. rewrite div_spec.
  remember (Prim2SF 1) as one eqn:E1. vm_compute in E1. subst one.
  remember (Prim2SF 0) as zero eqn:E0. vm_compute in E0. subst zero.
  destruct (Prim2SF x) as [| [] | | []]; try discriminate; reflexivity.
Qed.

(** A finite number minus itself is [0]. *)
Lemma sub_diag x : finite x = true -> (x - x)%float = 0%float.
Proof.
  unfold finite, nonfinite. intros Hx. apply Prim2SF_inj. rewrite sub_spec.
  remember (Prim2SF 0) as zero eqn:E0. vm_compute in E0. subst zero.
  destruct (Prim2SF x) as [[]| | |s m e]; try discriminate; try reflexivity.
  unfold SF64sub, SFsub. cbv zeta. rewrite Z.sub_diag. reflexivity.
Qed.

Lemma nonfinite_vec_intro (p : float * float) :
  nonfinite p.1 = true -> nonfinite p.2 = true -> nonfinite_vec p = true.
Proof. intros H1 H2. unfold nonfinite_vec. by rewrite H1, H2. Qed.

Lemma nonfinite_vec_elim (p : float * float) :
  nonfinite_vec p = true -> nonfinite p.1 = true /\ nonfinite p.2 = true.
Proof. unfold nonfinite_vec. intros H. by apply andb_prop in H. Qed.

Lemma nonfinite_vec_scale (v : Vec2) k :
  nonfinite_vec v = true -> nonfinite_vec (Vec2_scale v k) = true.
Proof.
  intros [H1 H2]%nonfinite_vec_elim.
  apply nonfinite_vec_intro; apply nonfinite_mul_l; assumption.
Qed.

Lemma nonfinite_vec_add (p v : Vec2) :
  nonfinite_vec v = true -> nonfinite_vec (Vec2_add p v) = true.
Proof.
  intros [H1 H2]%nonfinite_vec_elim.
  apply nonfinite_vec_intro; apply nonfinite_add_r; assumption.
Qed.

Lemma nonfinite_vec_sub_r (p v : Vec2) :
  nonfinite_vec v = true -> nonfinite_vec (Vec2_sub p v) = true.
Proof.
  intros [H1 H2]%nonfinite_vec_elim.
  apply nonfinite_vec_intro; apply nonfinite_sub_r; assumption.
Qed.

Lemma nonfinite_vec_sub_l (v p : Vec2) :
  nonfinite_vec v = true -> nonfinite_vec (Vec2_sub v p) = true.
Proof.
  intros [H1 H2]%nonfinite_vec_elim.
  apply nonfinite_vec_intro; apply nonfinite_sub_l; assumption.
Qed.

(** When the distance [===] 0, the [delta] of a link is not finite. *)
Lemma delta_nonfinite (pa pb : Vec2) target :
  (Vec2_length (Vec2_sub pb pa) === #0) = true ->
  nonfinite_vec (Link_delta pa pb target) = true.
Proof.
  intros H. change (lit 0%Z) with 0%float in H. apply one_over_zero in H.
  unfold Link_delta. cbv zeta. change (lit 1%Z) with 1%float.
  apply nonfinite_vec_scale, nonfinite_vec_intro;
    apply nonfinite_mul_r; exact H.
Qed.

(** Two objects at the same finite position are at distance [0]. *)
Lemma coincident_distance (pa pb : Vec2) :
  pb = pa -> finite_vec pa = true ->
  (Vec2_length (Vec2_sub pb pa) === #0) = true.
Proof.
  intros -> [H1 H2]%andb_prop. unfold Vec2_length, Vec2_sub.
  cbn [fst snd nsub float_Number Math_hypot].
  rewrite !sub_diag by assumption. reflexivity.
Qed.

(** C4. In a link whose ends are at distance [0] (as they are when they
    coincide at a finite position), [apply()] divides 1 by that distance,
    which gives an infinity, and every position that it writes has
    non-finite components: nothing guards the division. In collision
    resolution, a pair of objects at distance [0] is skipped: the objects
    are left as they are. *)
Theorem coincident_link_and_collision l (objs : Store) oa ob :
  objs !! Link_a l = Some oa ->
  objs !! Link_b l = Some ob ->
  Link_a l <> Link_b l ->
  let dist := Vec2_length (Vec2_sub (position ob) (position oa)) in
  (position ob = position oa -> finite_vec (position oa) = true ->
   (dist === #0) = true) /\
  ((dist === #0) = true ->
   nonfinite (#1 /. dist) = true /\
   exists oa' ob',
     Link_apply l objs !! Link_a l = Some oa' /\
     Link_apply l objs !! Link_b l = Some ob' /\
     if frozen oa then oa' = oa /\ nonfinite_vec (position ob') = true
     else if frozen ob then nonfinite_vec (position oa') = true /\ ob' = ob
     else nonfinite_vec (position oa') = true /\
          nonfinite_vec (position ob') = true) /\
  (forall i j a b,
     objs !! i = Some a -> objs !! j = Some b ->
     (Vec2_length (Vec2_sub (position a) (position b)) === #0) = true ->
     collide i j objs = objs).
Proof.
  intros Ha Hb Hab dist. split; [|split].
  - apply coincident_distance.
  - intros Hd. split.
    { change (lit 0%Z) with 0%float in Hd. exact (one_over_zero _ Hd). }
    pose proof (delta_nonfinite _ _ (Link_target l) Hd) as Hdelta.
    destruct (frozen oa) eqn:Hfa; [|destruct (frozen ob) eqn:Hfb].
    + rewrite (Link_apply_frozen_a l objs oa ob Ha Hb Hfa).
      exists oa. eexists. split; [|split; [|split; [reflexivity|]]].
      * rewrite list_lookup_alter_ne by congruence. exact Ha.
      * rewrite list_lookup_alter_eq, Hb. reflexivity.
      * apply nonfinite_vec_sub_r, Hdelta.
    + rewrite (Link_apply_frozen_b l objs oa ob Ha Hb Hfa Hfb).
      eexists. exists ob. split; [|split; [|split; [|reflexivity]]].
      * rewrite list_lookup_alter_eq, Ha. reflexivity.
      * rewrite list_lookup_alter_ne by congruence. exact Hb.
      * apply nonfinite_vec_add, Hdelta.
    + destruct (Link_apply_free l objs oa ob Ha Hb Hab Hfa Hfb)
        as (HA & HB & _).
      eexists _, _. split; [exact HA|]. split; [exact HB|]. split.
      * apply nonfinite_vec_add, nonfinite_vec_sub_l, Hdelta.
      * apply nonfinite_vec_sub_r, nonfinite_vec_scale, Hdelta.
  - intros i j a b. apply collide_coincident.
Qed.

(** Two particles at the spawn point, linked and in collision. *)
Lemma coincident_link_and_collision_witness :
  (coincident !! 0%nat = Some (spawned 10) /\
   coincident !! 1%nat = Some (spawned 20)) /\
  (exists oa' ob',
     Link_apply coincident_link coincident !! 0%nat = Some oa' /\
     Link_apply coincident_link coincident !! 1%nat = Some ob' /\
     nonfinite_vec (position oa') = true /\
     nonfinite_vec (position ob') = true) /\
  collide 0 1 coincident = coincident.
Proof.
  split; [split; reflexivity|].
  destruct (coincident_link_and_collision coincident_link coincident
              (spawned 10) (spawned 20) eq_refl eq_refl)
    as (Hzero & Hlink & Hskip); [discriminate|].
  specialize (Hzero eq_refl eq_refl). split.
  - destruct (Hlink Hzero) as (_ & oa' & ob' & HA & HB & H). eauto.
  - exact (Hskip 0%nat 1%nat (spawned 10) (spawned 20) eq_refl eq_refl eq_refl).
Defined.

(** *** The statements of every number type, run on floating point *)

(** The particle in flight, integrated over half a second: it moves by its
    velocity [(0, 1)] and by [1000 * 0.25]. *)
Lemma updatePosition_free_witness :
  kind falling = Free /\
  position (updatePosition (N := float_Number) 0.5%float falling) = (350, 352)%float /\
  oldPosition (updatePosition (N := float_Number) 0.5%float falling) = (350, 101)%float /\
  accleration (updatePosition (N := float_Number) 0.5%float falling) = (0, 0)%float.
Proof.
  destruct (updatePosition_free (N := float_Number) 0.5%float falling eq_refl)
    as (Hp & Ho & Ha & _).
  split; [reflexivity|]. split; [|split].
  - rewrite Hp. reflexivity.
  - rewrite Ho. reflexivity.
  - rewrite Ha. reflexivity.
Defined.

(** The link of target length 4 between two anchors 8 apart moves the
    second anchor by 4, until its [updatePosition]. *)
Lemma Link_apply_both_anchored_witness :
  (frozen anchor = true /\ frozen anchor' = true) /\
  Link_apply anchor_link [anchor; anchor'] !! 1%nat =
    Some (set_position (N := float_Number) (300, 204)%float anchor') /\
  Link_apply anchor_link [anchor; anchor'] !! 0%nat = Some anchor /\
  updatePosition (N := float_Number) 0.5%float (set_position (N := float_Number) (300, 204)%float anchor') =
    updatePosition (N := float_Number) 0.5%float anchor'.
Proof.
  destruct (Link_apply_both_anchored anchor_link [anchor; anchor']
              anchor anchor' eq_refl eq_refl eq_refl eq_refl)
    as (Hb & Hothers & Hheal).
  split; [split; reflexivity|]. split; [|split].
  - refine (eq_trans Hb _). vm_compute. reflexivity.
  - refine (eq_trans (Hothers 0%nat _) _); [discriminate|reflexivity].
  - exact (Hheal (0.5%float : @num float_Number)).
Defined.

(** The anchor of the small pendulum, after three substeps. *)
Lemma anchor_invariance_witness :
  (objects small_pendulum !! 0%nat = Some anchor /\
   anchored_at (N := float_Number) (300, 200)%float anchor) /\
  exists o',
    objects
      (updates (N := float_Number) [0.125; 0.125; 0.125]%float
         small_pendulum).1 !! 0%nat
      = Some o' /\
    anchored_at (N := float_Number) (300, 200)%float o'.
Proof.
  assert (H : anchored_at (N := float_Number) (300, 200)%float anchor)
    by (repeat split).
  split; [split; [reflexivity|exact H]|].
  exact (anchor_invariance (N := float_Number) small_pendulum 0%nat anchor (300, 200)%float
           [0.125; 0.125; 0.125]%float eq_refl H).
Defined.

End IEEEFacts.

(** ** More facts that hold at every number type *)

Section Coverage.
Context {N : Number} {X : NumberExt N}.

Notation "x <- m ;; k" := (bind m (fun x => k))
  (at level 100, m at next level, right associativity).
Notation "m ;; k" := (bind m (fun _ => k))
  (at level 100, right associativity).

(** *** What a substep leaves alone *)

Lemma identity_of_shape (Y Y0 : Store) :
  shape <$> Y = shape <$> Y0 -> identity_of <$> Y = identity_of <$> Y0.
Proof.
  intros H.
  apply (f_equal (fmap (fun x : Kind * Vec2 * Vec2 * num * num =>
                          (x.1.1.1.1, x.1.2, x.2)))) in H.
  by rewrite <- !list_fmap_compose in H.
Qed.

Lemma identity_of_applyGravity g (objs : Store) :
  identity_of <$> applyGravity g objs = identity_of <$> objs.
Proof. unfold applyGravity. by rewrite <- list_fmap_compose. Qed.

Lemma identity_of_updatePosition dt o :
  identity_of (updatePosition dt o) = identity_of o.
Proof.
  unfold updatePosition, identity_of.
  destruct (kind o) eqn:E; cbn; rewrite E; reflexivity.
Qed.

Lemma identity_of_substep dt s :
  identity_of <$> substep dt s = identity_of <$> objects s.
Proof.
  unfold substep. cbv zeta. unfold updatePositions.
  rewrite <- list_fmap_compose.
  etransitivity;
    [apply list_fmap_ext; intros i o _; apply identity_of_updatePosition|].
  transitivity (identity_of <$> applyGravity (gravity s) (objects s));
    [|apply identity_of_applyGravity].
  apply identity_of_shape. rewrite shape_applyLinks.
  destruct (collisions s); rewrite ?shape_solveCollisions;
    destruct (bounded s); try reflexivity;
    destruct (canvas s); rewrite ?shape_constrain_all; reflexivity.
Qed.

(** X1. [update(dt)], whether it returns or throws, assigns nothing but
    [objects]' positions, old positions and accelerations: the simulation
    keeps its links, gravity, flags, canvas, context, timestamp and handle,
    and the store keeps its length and each object its class (with its
    anchor), radius and mass. *)
Theorem update_frame dt s :
  exists objs' : Store,
    (update dt s).1 = set_objects objs' s /\
    identity_of <$> objs' = identity_of <$> objects s /\
    length objs' = length (objects s).
Proof.
  assert (H : forall objs' : Store,
    identity_of <$> objs' = identity_of <$> objects s ->
    identity_of <$> objs' = identity_of <$> objects s /\
    length objs' = length (objects s)).
  { intros objs' E. split; [exact E|].
    apply (f_equal length) in E. by rewrite !length_fmap in E. }
  rewrite update_eq.
  destruct (bounded s); [destruct (canvas s)|]; eexists;
    (split; [reflexivity|]); apply H;
    first [apply identity_of_substep | apply identity_of_applyGravity].
Qed.

(** *** More reasoning about methods *)

Lemma triple_get {A} P (f : Simulation -> A) (Qn : A -> Simulation -> Prop) Qt :
  (forall s, P s -> Qn (f s) s) -> triple P (get f) Qn Qt.
Proof. intros H s Hs. exact (H s Hs). Qed.

Lemma triple_modify P f (Qn : unit -> Simulation -> Prop) Qt :
  (forall s, P s -> Qn tt (f s)) -> triple P (modify f) Qn Qt.
Proof. intros H s Hs. exact (H s Hs). Qed.

Lemma triple_ret {A} P (x : A) (Qn : A -> Simulation -> Prop) Qt :
  (forall s, P s -> Qn x s) -> triple P (ret x) Qn Qt.
Proof. intros H s Hs. exact (H s Hs). Qed.

Lemma triple_False {A} (m : M A) Qn Qt : triple (fun _ => False) m Qn Qt.
Proof. intros s []. Qed.

Lemma triple_snd {A} P (m : M A) Qn Qt s :
  triple P m Qn Qt -> P s ->
  match (m s).2 with
  | Normal x => Qn x (m s).1
  | Throw _ => Qt (m s).1
  end.
Proof. intros H Hs. specialize (H s Hs). by destruct (m s) as [s' [x|e]]. Qed.

Lemma spawn_Normal t dt r s : (spawn t dt r s).2 = Normal tt.
Proof.
  destruct (spawn_cases t dt r s) as [->|(_ & _ & o & ->)]; reflexivity.
Qed.

(** A tick keeps every property that its assignments keep. *)
Lemma step_keeps_with (P : Simulation -> Prop) t h r :
  (forall s x, P s -> P (set_t x s)) ->
  ctx_stable P ->
  (forall s x, P s -> P (set_id x s)) ->
  (forall s dt, P s -> P (advance dt s)) ->
  (forall s, P s -> P (set_objects (applyGravity (gravity s) (objects s)) s)) ->
  (forall s dt, P s -> P (spawn t dt r s).1) ->
  forall s, P s -> P (step t h r s).1.
Proof.
  intros Ht Hx Hid Hadv Hg Hsp s Hs. rewrite step_eq. cbv zeta.
  apply (triple_fst P _ P); [|apply Ht, Hs].
  eapply triple_bind.
  - apply keeps_for_range. intros _. apply keeps_update; auto.
  - intros ?. apply triple_after_substeps; auto.
    intros s' Hs'. specialize (Hsp s' (step_dt (Simulation_t s) t) Hs').
    pose proof (spawn_Normal t (step_dt (Simulation_t s) t) r s') as Hn.
    destruct (spawn _ _ _ s') as [s'' [[]|e]]; [exact Hsp|discriminate].
Qed.

Lemma spawn_objects t dt r s :
  exists objs' : Store, (spawn t dt r s).1 = set_objects objs' s.
Proof.
  destruct (spawn_cases t dt r s) as [->|(_ & _ & o & ->)].
  - exists (objects s). by destruct s.
  - eexists. reflexivity.
Qed.

Lemma step_keeps (P : Simulation -> Prop) t h r :
  (forall s x, P s -> P (set_t x s)) ->
  ctx_stable P ->
  (forall s x, P s -> P (set_id x s)) ->
  (forall s o, P s -> P (set_objects o s)) ->
  forall s, P s -> P (step t h r s).1.
Proof.
  intros Ht Hx Hid Ho. apply step_keeps_with; auto.
  - intros s dt. apply Ho.
  - intros s dt Hs. destruct (spawn_objects t dt r s) as [objs' ->].
    by apply Ho.
Qed.

(** *** When a tick returns *)

Lemma step_throws t h r s : ~ attached s -> (step t h r s).2 = Throw TypeError.
Proof.
  intros Hna.
  assert (Hthrows : forall P : Simulation -> Prop,
    triple P (step t h r) (fun _ _ => False) (fun _ => True) ->
    P s -> (step t h r s).2 = Throw TypeError).
  { intros P HT HP. pose proof (triple_snd P _ _ _ s HT HP) as H.
    by destruct (step t h r s).2 as [x|[]]. }
  assert (Hloop : forall (P : Simulation -> Prop) dt,
    (forall s' o, P s' -> P (set_objects o s')) ->
    triple P (for_range 0 substeps (fun _ => update dt))
      (fun _ => P) (fun _ => True)).
  { intros P dt HP. apply keeps_for_range. intros _.
    apply keeps_update; [|done]. intros s' Hs'. by apply HP. }
  destruct (ctx s) as [cx|] eqn:Hx.
  - destruct (canvas s) as [cv|] eqn:Hc.
    { destruct Hna. split; by eexists. }
    apply (Hthrows (fun s' => canvas s' = None)); [|exact Hc].
    intros s0 Hs0. rewrite step_eq. cbv zeta.
    refine (triple_bind (fun s' => canvas s' = None) _ _ _ _ _ _ _
              (set_t (Some t) s0) Hs0).
    + apply Hloop. intros s' o Hs'. exact Hs'.
    + intros ?. unfold after_substeps, draw.
      eapply triple_bind; [|intros ?; apply triple_False].
      eapply triple_bind;
        [apply (keeps_the_ctx (fun s' => canvas s' = None)); done|intros ?].
      eapply triple_bind; [|intros ?; apply triple_False].
      intros s' Hs'. unfold the_canvas. by rewrite Hs'.
  - apply (Hthrows (fun s' => ctx s' = None)); [|exact Hx].
    intros s0 Hs0. rewrite step_eq. cbv zeta.
    refine (triple_bind (fun s' => ctx s' = None) _ _ _ _ _ _ _
              (set_t (Some t) s0) Hs0).
    + apply Hloop. intros s' o Hs'. exact Hs'.
    + intros ?. unfold after_substeps, draw.
      eapply triple_bind; [|intros ?; apply triple_False].
      eapply triple_bind; [|intros ?; apply triple_False].
      intros s' Hs'. unfold the_ctx. by rewrite Hs'.
Qed.

(** X2. A tick returns exactly when a canvas and its context are attached;
    otherwise it throws a [TypeError]. *)
Theorem step_returns_iff_attached t handle random s :
  (step t handle random s).2 = Normal tt <-> attached s.
Proof.
  split.
  - intros Hn. destruct (canvas s) as [cv|] eqn:Hc;
      [destruct (ctx s) as [cx|] eqn:Hx|].
    + split; [rewrite Hc|rewrite Hx]; by eexists.
    + rewrite step_throws in Hn; [discriminate|].
      intros [_ [cx' Hx']]. congruence.
    + rewrite step_throws in Hn; [discriminate|].
      intros [[cv' Hc'] _]. congruence.
  - intros Ha.
    destruct (step_attached t handle random s Ha) as (s1 & s' & _ & -> & _).
    reflexivity.
Qed.

(** *** Scheduling *)

Ltac kept :=
  unfold ctx_stable; intros;
  first [ reflexivity
        | match goal with H : _ |- _ => exact H end
        | eexists; reflexivity ].

(** A tick requests the next frame only if it gets as far as scheduling,
    that is if it returns, and only while the simulation is playing. *)
Lemma step_id t h r s :
  Simulation_id (step t h r s).1 =
    match (step t h r s).2 with
    | Normal _ => if playing s then Some h else Simulation_id s
    | Throw _ => Simulation_id s
    end.
Proof.
  set (P := fun s' : Simulation =>
              playing s' = playing s /\ Simulation_id s' = Simulation_id s).
  set (Qn := fun s' : Simulation =>
               Simulation_id s' =
                 if playing s then Some h else Simulation_id s).
  set (Qt := fun s' : Simulation => Simulation_id s' = Simulation_id s).
  assert (HT : triple P (step t h r) (fun _ => Qn) Qt).
  { intros s0 Hs0. rewrite step_eq. cbv zeta.
    refine (triple_bind P _ _ _ _ _ _ _ (set_t (Some t) s0) Hs0).
    - apply keeps_for_range. intros _.
      apply keeps_update; [intros s' Hs'; exact Hs'|].
      intros s' [_ Hs'] _. exact Hs'.
    - intros ?. unfold after_substeps.
      assert (HQt : forall s', P s' -> Qt s') by (intros s' [_ H]; exact H).
      eapply triple_bind; [apply keeps_draw; auto; by intros ???|intros ?].
      do 3 (eapply triple_bind;
              [apply keeps_ctx_call; auto; by intros ???|intros ?]).
      eapply triple_bind;
        [apply (triple_get P playing (fun p s' => P s' /\ p = playing s));
         intros s' Hs'; split; [exact Hs'|apply Hs']|intros p].
      eapply (triple_bind _ _ _ (fun _ => Qn)).
      + intros s' [[Hp Hi] ->]. unfold Qn.
        destruct (playing s); [reflexivity|exact Hi].
      + intros ? s' Hs'.
        destruct (spawn_cases t (step_dt (Simulation_t s0) t) r s')
          as [->|(_ & _ & o & ->)]; exact Hs'. }
  pose proof (triple_snd P _ _ _ s HT (conj eq_refl eq_refl)) as H.
  by destruct (step t h r s).2.
Qed.

(** A tick on a state whose context is missing, and whose canvas is not
    needed by the substeps or is there: the substeps all run, and the tick
    throws when it draws, leaving the state that the substeps left. *)
Lemma step_without_ctx t h r s :
  ctx s = None ->
  bounded s = false \/ is_Some (canvas s) ->
  exists s1,
    updates (replicate substeps (step_subDt (step_dt (Simulation_t s) t)))
      (set_t (Some t) s) = (s1, Normal tt) /\
    s1 = set_objects (objects s1) (set_t (Some t) s) /\
    step t h r s = (s1, Throw TypeError).
Proof.
  intros Hx Hs. rewrite step_eq. cbv zeta.
  destruct (updates_return
              (replicate substeps (step_subDt (step_dt (Simulation_t s) t)))
              (set_t (Some t) s)) as (s1 & H1 & E1); [exact Hs|].
  exists s1. split; [exact H1|]. split; [exact E1|].
  rewrite (bind_Normal _ _ _ s1 tt); [|rewrite for_range_updates; exact H1].
  unfold after_substeps. apply bind_Throw. unfold draw.
  apply bind_Throw. unfold the_ctx. rewrite E1. cbn. by rewrite Hx.
Qed.

(** X3. [start(canvas)] stores the canvas and what its [getContext('2d')]
    returns, sets [playing] and ticks at [t = 0], which stores the timestamp
    [0]. It returns exactly when the canvas gave a context: it has then
    requested a frame, whose handle is in [id]. When the canvas gave [null],
    it throws a [TypeError], after the substeps have all run, when the tick
    draws: the simulation is left playing with no context, with the objects
    that the substeps left, and no frame is requested. *)
Theorem start_attaches cv handle random s :
  let s' := (start (Some cv) handle random s).1 in
  playing s' = true /\
  canvas s' = Some cv /\
  Simulation_t s' = Some #0 /\
  match getContext_2d cv with
  | Some _ =>
      (start (Some cv) handle random s).2 = Normal tt /\
      is_Some (ctx s') /\
      Simulation_id s' = Some handle
  | None =>
      (start (Some cv) handle random s).2 = Throw TypeError /\
      ctx s' = None /\
      Simulation_id s' = Simulation_id s /\
      exists s1,
        updates
          (replicate substeps (step_subDt (step_dt (Simulation_t s) #0)))
          (set_t (Some #0)
             (set_playing true (set_ctx None (set_canvas (Some cv) s))))
          = (s1, Normal tt) /\
        objects s' = objects s1
  end.
Proof.
  intros s'. subst s'. rewrite start_eq.
  set (s0 := set_playing true
               (set_ctx (getContext_2d cv) (set_canvas (Some cv) s))).
  split; [apply (step_keeps (fun s' => playing s' = true)); kept|].
  split; [apply (step_keeps (fun s' => canvas s' = Some cv)); kept|].
  split; [apply step_t|].
  destruct (getContext_2d cv) as [log|] eqn:Hg.
  - assert (Ha : attached s0) by (split; eexists; reflexivity).
    assert (Hn : (step #0 handle random s0).2 = Normal tt).
    { destruct (step_attached #0 handle random s0 Ha) as (s1 & s' & _ & E & _).
      by rewrite E. }
    pose proof (step_id #0 handle random s0) as Hid. rewrite Hn in Hid.
    split; [exact Hn|]. split; [|exact Hid].
    apply (step_keeps (fun s' => is_Some (ctx s'))); kept.
  - destruct (step_without_ctx #0 handle random s0 eq_refl)
      as (s1 & H1 & E1 & E); [right; by eexists|].
    pose proof (step_id #0 handle random s0) as Hid.
    rewrite E in Hid. rewrite E. cbn [fst snd] in Hid. cbn [fst snd].
    split; [reflexivity|]. split; [by rewrite E1|]. split; [exact Hid|].
    exists s1. split; [exact H1|reflexivity].
Qed.

Lemma fire_tick_stopped s t h r :
  playing s = false ->
  playing (fire s (Tick t h r)) = false /\
  Simulation_id (fire s (Tick t h r)) = Simulation_id s.
Proof.
  intros Hp. cbn [fire]. split.
  - apply (step_keeps (fun s' => playing s' = false)); kept.
  - rewrite step_id, Hp. by destruct (step t h r s).2.
Qed.

(** X4. [stop()] leaves the objects and the links as they are, and the
    ticks that the scheduler still delivers after it request no further
    frame: the simulation stays stopped and [id] keeps its value. *)
Theorem stop_ends_scheduling s (ticks : list (num * nat * num)) :
  let s' := (stop s).1 in
  let s'' := run ((fun x => Tick x.1.1 x.1.2 x.2) <$> ticks) s' in
  objects s' = objects s /\ links s' = links s /\
  playing s'' = false /\ Simulation_id s'' = Simulation_id s.
Proof.
  intros s' s''. split; [reflexivity|]. split; [reflexivity|].
  assert (H : forall s0,
    playing s0 = false ->
    playing (run ((fun x => Tick x.1.1 x.1.2 x.2) <$> ticks) s0) = false /\
    Simulation_id (run ((fun x => Tick x.1.1 x.1.2 x.2) <$> ticks) s0)
      = Simulation_id s0).
  { induction ticks as [|[[t h] r] ticks IH]; intros s0 Hs0; [by split|].
    destruct (fire_tick_stopped s0 t h r Hs0) as [Hp Hi].
    destruct (IH _ Hp) as [Hp' Hi']. split; [exact Hp'|].
    etransitivity; [exact Hi'|exact Hi]. }
  exact (H s' eq_refl).
Qed.

(** *** The scenes *)

Lemma run_keeps (P : Simulation -> Prop) evs :
  (forall s e, P s -> P (fire s e)) -> forall s, P s -> P (run evs s).
Proof.
  intros Hf. induction evs as [|e evs IH]; intros s Hs; [exact Hs|].
  apply IH, Hf, Hs.
Qed.

Lemma fire_keeps_with (P : Simulation -> Prop) :
  (forall s x, P s -> P (set_t x s)) ->
  (forall s x, P s -> P (set_ctx x s)) ->
  (forall s x, P s -> P (set_canvas x s)) ->
  (forall s x, P s -> P (set_id x s)) ->
  (forall s x, P s -> P (set_playing x s)) ->
  (forall s x, P s -> P (set_bounded x s)) ->
  (forall s x, P s -> P (set_collisions x s)) ->
  (forall s dt, P s -> P (advance dt s)) ->
  (forall s, P s -> P (set_objects (applyGravity (gravity s) (objects s)) s)) ->
  (forall s t dt r, P s -> P (spawn t dt r s).1) ->
  forall s e, P s -> P (fire s e).
Proof.
  intros Ht Hx Hc Hid Hp Hb Hco Hadv Hg Hsp s e Hs.
  assert (Hstep : forall s' t h r, P s' -> P (step t h r s').1).
  { intros s' t h r. apply step_keeps_with; auto.
    intros s0 c. apply Hx. }
  destruct e as [t h r|c h r| | |]; cbn [fire].
  - by apply Hstep.
  - rewrite start_eq. apply Hstep, Hp. destruct c; auto.
  - by apply Hp.
  - by apply Hb.
  - by apply Hco.
Qed.

Lemma identity_of_lookup (objs objs' : Store) i o' :
  identity_of <$> objs' = identity_of <$> objs ->
  objs' !! i = Some o' ->
  exists o, objs !! i = Some o /\ identity_of o = identity_of o'.
Proof.
  intros Hs Hi.
  assert (H : (identity_of <$> objs) !! i = Some (identity_of o'))
    by (rewrite <- Hs, list_lookup_fmap, Hi; reflexivity).
  rewrite list_lookup_fmap in H.
  destruct (objs !! i) as [o|]; [|discriminate].
  exists o. split; [reflexivity|]. simpl in H. congruence.
Qed.

Lemma spawn_elsewhere t dt r s :
  simType s <> BoundedObjects -> spawn t dt r s = (s, Normal tt).
Proof.
  intros Hty. by destruct (spawn_cases t dt r s) as [->|(E & _)].
Qed.

(** In a scene that does not spawn, no event changes the class, radius or
    mass of an object, nor the number of objects. *)
Lemma run_identity ty evs s :
  ty <> BoundedObjects -> simType s = ty ->
  identity_of <$> objects (run evs s) = identity_of <$> objects s /\
  links (run evs s) = links s.
Proof.
  intros Hty Hs.
  apply (run_keeps (fun s' =>
           (identity_of <$> objects s' = identity_of <$> objects s /\
            links s' = links s) /\ simType s' = ty)); [|by repeat split].
  apply fire_keeps_with; try (intros; assumption).
  - intros s' dt [[Hi Hl] Ht]. repeat split; try assumption.
    cbn. rewrite identity_of_substep. exact Hi.
  - intros s' [[Hi Hl] Ht]. repeat split; try assumption.
    cbn. rewrite identity_of_applyGravity. exact Hi.
  - intros s' t dt r [[Hi Hl] Ht]. rewrite spawn_elsewhere by congruence.
    by repeat split.
Qed.

Lemma spawn_appends t dt r s :
  spawn t dt r s = (s, Normal tt) \/
  (simType s = BoundedObjects /\ length (objects s) < 100 /\
   spawn t dt r s =
     (set_objects
        (objects s ++
           [new_SimObject (#350, #100) (Some (r *. #20 +. #10)) None]) s,
      Normal tt)).
Proof.
  unfold spawn, bind, get, modify, ret.
  destruct (simType s) eqn:Hty; simpl; auto.
  destruct (nrem t #500 <. dt *. #1000); simpl; auto.
  destruct (length (objects s) <? 100) eqn:Hlt; simpl; auto.
  right. apply Nat.ltb_lt in Hlt. auto.
Qed.

(** X6. In the bounded scene, whatever happens, there is no link and no
    object is anchored: every object is a free one that a tick spawned. *)
Theorem bounded_scene_is_free evs :
  let s := run evs (new_Simulation BoundedObjects) in
  links s = [] /\ Forall (fun o => frozen o = false) (objects s).
Proof.
  apply (run_keeps (fun s' =>
           links s' = [] /\ Forall (fun o => frozen o = false) (objects s')));
    [|split; [reflexivity|constructor]].
  assert (Hid : forall objs objs' : Store,
    identity_of <$> objs' = identity_of <$> objs ->
    Forall (fun o => frozen o = false) objs ->
    Forall (fun o => frozen o = false) objs').
  { intros objs objs' E H. apply Forall_lookup. intros i o' Hi.
    destruct (identity_of_lookup objs objs' i o' E Hi) as (o & Ho & Eo).
    pose proof (Forall_lookup_1 _ _ _ _ H Ho) as Hf. cbv beta in Hf.
    unfold identity_of in Eo. unfold frozen. unfold frozen in Hf.
    by replace (kind o') with (kind o) by congruence. }
  apply fire_keeps_with; try (intros; assumption).
  - intros s' dt [Hl Hf]. split; [exact Hl|].
    exact (Hid _ _ (identity_of_substep dt s') Hf).
  - intros s' [Hl Hf]. split; [exact Hl|].
    exact (Hid _ _ (identity_of_applyGravity _ _) Hf).
  - intros s' t dt r [Hl Hf].
    destruct (spawn_appends t dt r s') as [->|(_ & _ & ->)]; [by split|].
    split; [exact Hl|]. cbn. apply Forall_app_2; [exact Hf|].
    by apply Forall_singleton.
Qed.

Lemma DoublePendulums_size :
  let s := new_Simulation DoublePendulums in
  length (objects s) = 21 /\ length (links s) = 20 /\
  frozen <$> objects s = true :: replicate 20 false /\
  links_valid s.
Proof.
  split; [reflexivity|]. split; [reflexivity|]. split; [reflexivity|].
  unfold links_valid.
  change (length (objects (new_Simulation DoublePendulums))) with 21.
  cbv -[lt not lit nadd nsub nmul ndiv Math_cos Math_sin Math_PI].
  repeat (constructor; [repeat split; lia|]). constructor.
Qed.

Lemma LongPendulum_size :
  let s := new_Simulation LongPendulum in
  length (objects s) = 10 /\ length (links s) = 9 /\
  frozen <$> objects s = true :: replicate 9 false /\
  mass <$> objects s !! 9 = Some #10000 /\
  links_valid s.
Proof.
  split; [reflexivity|]. split; [reflexivity|]. split; [reflexivity|].
  split; [reflexivity|].
  unfold links_valid.
  change (length (objects (new_Simulation LongPendulum))) with 10.
  cbv -[lt not lit nadd nsub nmul ndiv Math_cos Math_sin Math_PI].
  repeat (constructor; [repeat split; lia|]). constructor.
Qed.

Lemma identity_of_facts (objs objs' : Store) :
  identity_of <$> objs' = identity_of <$> objs ->
  length objs' = length objs /\
  frozen <$> objs' = frozen <$> objs /\
  mass <$> objs' = mass <$> objs /\
  radius <$> objs' = radius <$> objs.
Proof.
  intros E. split; [|split; [|split]].
  - apply (f_equal length) in E. by rewrite !length_fmap in E.
  - apply (f_equal (fmap (fun k : Kind * num * num =>
             match k.1.1 with Frozen _ => true | Free => false end))) in E.
    by rewrite <- !list_fmap_compose in E.
  - apply (f_equal (fmap (fun k : Kind * num * num => k.2))) in E.
    by rewrite <- !list_fmap_compose in E.
  - apply (f_equal (fmap (fun k : Kind * num * num => k.1.2))) in E.
    by rewrite <- !list_fmap_compose in E.
Qed.

(** X5. Whatever ticks, starts, stops and flag changes happen, the double
    pendulums keep their 21 objects and 20 links and the long pendulum its
    10 objects and 9 links; the first object stays the only anchored one,
    the last object of the long pendulum keeps the mass 10000, and every
    link joins two different objects of the store. *)
Theorem pendulums_keep_their_shape evs :
  (let s := run evs (new_Simulation DoublePendulums) in
   length (objects s) = 21 /\ length (links s) = 20 /\
   frozen <$> objects s = true :: replicate 20 false /\
   links_valid s) /\
  (let s := run evs (new_Simulation LongPendulum) in
   length (objects s) = 10 /\ length (links s) = 9 /\
   frozen <$> objects s = true :: replicate 9 false /\
   mass <$> objects s !! 9 = Some #10000 /\
   links_valid s).
Proof.
  split; cbv zeta.
  - destruct (run_identity DoublePendulums evs (new_Simulation DoublePendulums))
      as [Hi Hl]; [discriminate|reflexivity|].
    destruct (identity_of_facts _ _ Hi) as (Hlen & Hf & _).
    destruct DoublePendulums_size as (H1 & H2 & H3 & H4).
    unfold links_valid. rewrite Hlen, Hl, Hf. auto.
  - destruct (run_identity LongPendulum evs (new_Simulation LongPendulum))
      as [Hi Hl]; [discriminate|reflexivity|].
    destruct (identity_of_facts _ _ Hi) as (Hlen & Hf & Hm & _).
    destruct LongPendulum_size as (H1 & H2 & H3 & H4 & H5).
    unfold links_valid. rewrite Hlen, Hl, Hf.
    repeat split; try assumption.
    rewrite <- list_lookup_fmap, Hm, list_lookup_fmap. exact H4.
Qed.

(** *** Collision resolution of a settled store *)

Lemma foldl_fixed {A B} (f : A -> B -> A) (a : A) (xs : list B) :
  (forall x, x ∈ xs -> f a x = a) -> foldl f a xs = a.
Proof.
  induction xs as [|x xs IH]; intros H; [reflexivity|].
  simpl. rewrite (H x) by apply list_elem_of_here.
  apply IH. intros y Hy. apply H. by apply list_elem_of_further.
Qed.

Lemma collide_separated (objs : Store) i j :
  separated objs -> i < j -> collide i j objs = objs.
Proof.
  intros Hs Hij. unfold collide.
  destruct (objs !! i) as [a|] eqn:Hi; [|reflexivity].
  destruct (objs !! j) as [b|] eqn:Hj; [|reflexivity].
  cbv zeta. destruct (Hs i j a b Hij Hi Hj) as [->| H]; [reflexivity|].
  destruct (_ === _); [reflexivity|]. by rewrite H.
Qed.

(** X7. [solveCollisions()] leaves a store as it is when no pair of its
    objects overlaps: each pair, in the order of the two loops, either
    coincides (and is skipped) or is at least the sum of its radii apart. *)
Theorem solveCollisions_separated (objs : Store) :
  separated objs -> solveCollisions objs = objs.
Proof.
  intros Hs. unfold solveCollisions.
  apply foldl_fixed. intros i _.
  apply foldl_fixed. intros j Hj.
  apply elem_of_seq in Hj. apply collide_separated; [exact Hs|lia].
Qed.

(** *** The three branches of a resolved pair *)

Lemma collide_resolved i j (objs : Store) a b :
  objs !! i = Some a ->
  objs !! j = Some b ->
  i <> j ->
  let distance := Vec2_length (Vec2_sub (position a) (position b)) in
  (distance === #0) = false ->
  (distance <. radius a +. radius b) = true ->
  let delta := collide_delta (position a) (position b) (radius a +. radius b) in
  let deltaA := Vec2_scale delta (mass a /. (mass a +. mass b)) in
  let deltaB := Vec2_sub delta deltaA in
  let a' :=
    if frozen a then a
    else if frozen b then set_position (Vec2_add (position a) delta) a
    else set_position (Vec2_add (position a) deltaB) a in
  let b' :=
    if frozen a then set_position (Vec2_sub (position b) delta) b
    else if frozen b then b
    else set_position (Vec2_sub (position b) deltaA) b in
  collide i j objs !! i = Some a' /\
  collide i j objs !! j = Some b' /\
  (forall k, k <> i -> k <> j -> collide i j objs !! k = objs !! k).
Proof.
  intros Hi Hj Hij distance H0 Hlt delta deltaA deltaB a' b'.
  unfold collide. rewrite Hi, Hj. cbv zeta.
  fold distance. rewrite H0, Hlt.
  fold (collide_delta (position a) (position b) (radius a +. radius b)).
  fold delta. fold deltaA. fold deltaB. subst a' b'.
  destruct (frozen a); [|destruct (frozen b)].
  - rewrite list_lookup_alter_ne, list_lookup_alter_eq, Hi, Hj by congruence.
    repeat split. intros k _ Hk. apply list_lookup_alter_ne. congruence.
  - rewrite list_lookup_alter_eq, list_lookup_alter_ne, Hi, Hj by congruence.
    repeat split. intros k Hk _. apply list_lookup_alter_ne. congruence.
  - rewrite (list_lookup_alter_ne _ _ i j), Hj by exact Hij.
    rewrite list_lookup_alter_ne, !list_lookup_alter_eq by congruence.
    rewrite list_lookup_alter_ne, Hi, Hj by exact Hij.
    repeat split. intros k Hki Hkj.
    rewrite !list_lookup_alter_ne by congruence. reflexivity.
Qed.

(** X20. Collision resolution has no case for two anchored objects either:
    when two anchors overlap, it takes the branch of an anchored [a], leaves
    every object other than [b] as it is, and subtracts [delta] from the
    position of [b], which the [updatePosition] of [b] at the end of the
    substep does not depend on. *)
Theorem collide_both_anchored i j (objs : Store) a b :
  objs !! i = Some a ->
  objs !! j = Some b ->
  i <> j ->
  let distance := Vec2_length (Vec2_sub (position a) (position b)) in
  (distance === #0) = false ->
  (distance <. radius a +. radius b) = true ->
  frozen a = true ->
  frozen b = true ->
  let delta := collide_delta (position a) (position b) (radius a +. radius b) in
  let b' := set_position (Vec2_sub (position b) delta) b in
  collide i j objs !! j = Some b' /\
  (forall k, k <> j -> collide i j objs !! k = objs !! k) /\
  (forall dt, updatePosition dt b' = updatePosition dt b).
Proof.
  intros Hi Hj Hij distance H0 Hlt Hfa Hfb delta b'.
  destruct (collide_resolved i j objs a b Hi Hj Hij H0 Hlt) as (HA & HB & Hk).
  rewrite Hfa in HA, HB. split; [exact HB|]. split.
  - intros k Hkj. destruct (decide (k = i)) as [->|Hki].
    + by rewrite HA, Hi.
    + by apply Hk.
  - intros dt. by apply updatePosition_forgets.
Qed.

Lemma Link_apply_resolved l (objs : Store) oa ob :
  objs !! Link_a l = Some oa ->
  objs !! Link_b l = Some ob ->
  Link_a l <> Link_b l ->
  let delta := Link_delta (position oa) (position ob) (Link_target l) in
  let deltaA := Vec2_scale delta (mass oa /. (mass oa +. mass ob)) in
  let deltaB := Vec2_sub delta deltaA in
  let oa' :=
    if frozen oa then oa
    else if frozen ob then set_position (Vec2_add (position oa) delta) oa
    else set_position (Vec2_add (position oa) deltaB) oa in
  let ob' :=
    if frozen oa then set_position (Vec2_sub (position ob) delta) ob
    else if frozen ob then ob
    else set_position (Vec2_sub (position ob) deltaA) ob in
  Link_apply l objs !! Link_a l = Some oa' /\
  Link_apply l objs !! Link_b l = Some ob' /\
  (forall k, k <> Link_a l -> k <> Link_b l ->
     Link_apply l objs !! k = objs !! k).
Proof.
  intros Ha Hb Hab delta deltaA deltaB oa' ob'. subst oa' ob'.
  destruct (frozen oa) eqn:Hfa; [|destruct (frozen ob) eqn:Hfb].
  - rewrite (Link_apply_frozen_a l objs oa ob Ha Hb Hfa). fold delta.
    rewrite list_lookup_alter_ne, list_lookup_alter_eq, Ha, Hb by congruence.
    repeat split. intros k _ Hk. apply list_lookup_alter_ne. congruence.
  - rewrite (Link_apply_frozen_b l objs oa ob Ha Hb Hfa Hfb). fold delta.
    rewrite list_lookup_alter_eq, list_lookup_alter_ne, Ha, Hb by congruence.
    repeat split. intros k Hk _. apply list_lookup_alter_ne. congruence.
  - exact (Link_apply_free l objs oa ob Ha Hb Hab Hfa Hfb).
Qed.

Lemma alter_fixed {A} (f : A -> A) (xs : list A) i x :
  xs !! i = Some x -> f x = x -> alter f i xs = xs.
Proof.
  revert i. induction xs as [|y xs IH]; intros [|i] Hi Hf; try discriminate.
  - injection Hi as ->. cbn. by rewrite Hf.
  - cbn. f_equal. by apply IH.
Qed.

(** *** Drawing *)

Lemma draws_bind {A B} k1 k2 (m : M A) (k : A -> M B) s :
  draws k1 m s -> (forall x, draws k2 (k x) s) ->
  draws (k1 + k2) (x <- m ;; k x) s.
Proof.
  intros Hm Hk log. destruct (Hm log) as (l1 & x & E1 & <-).
  destruct (Hk x (log ++ l1)) as (l2 & y & E2 & <-).
  exists (l1 ++ l2), y. split; [|apply length_app].
  rewrite (bind_Normal _ _ _ _ _ E1). refine (eq_trans E2 _).
  by rewrite (assoc_L (++)).
Qed.

Lemma draws_read {A B} k2 (m : M A) (k : A -> M B) s x :
  (forall log, m (set_ctx (Some log) s) = (set_ctx (Some log) s, Normal x)) ->
  draws k2 (k x) s ->
  draws k2 (y <- m ;; k y) s.
Proof.
  intros Hm Hk log. destruct (Hk log) as (l2 & y & E2 & <-).
  exists l2, y. split; [|reflexivity].
  rewrite (bind_Normal _ _ _ _ _ (Hm log)). exact E2.
Qed.

Lemma draws_ctx_call op s : draws 1 (ctx_call op) s.
Proof. intros log. by exists [op], tt. Qed.

Lemma draws_ret s : draws 0 (ret tt) s.
Proof. intros log. exists [], tt. by rewrite (right_id_L [] (++)). Qed.

Lemma draws_for_of {A} k (xs : list A) (f : A -> M unit) s :
  (forall x, x ∈ xs -> draws k (f x) s) ->
  draws (k * length xs) (for_of xs f) s.
Proof.
  induction xs as [|x xs IH]; intros H.
  - rewrite Nat.mul_0_r. apply draws_ret.
  - cbn [for_of length]. replace (k * S (length xs)) with (k + k * length xs)
      by lia.
    apply draws_bind; [apply H, list_elem_of_here|intros _].
    apply IH. intros y Hy. by apply H, list_elem_of_further.
Qed.

Lemma draws_SimObject_draw o s : draws 4 (SimObject_draw o) s.
Proof.
  unfold SimObject_draw.
  repeat (apply (draws_bind 1); [apply draws_ctx_call|intros _]).
  apply draws_ctx_call.
Qed.

Lemma draws_Link_draw l s :
  Link_a l < length (objects s) -> Link_b l < length (objects s) ->
  draws 5 (Link_draw l) s.
Proof.
  intros Ha Hb. unfold Link_draw.
  destruct (lookup_lt_is_Some_2 _ _ Ha) as [oa Hoa].
  destruct (lookup_lt_is_Some_2 _ _ Hb) as [ob Hob].
  apply (draws_read _ _ _ _ (objects s)); [reflexivity|].
  rewrite Hoa, Hob.
  repeat (apply (draws_bind 1); [apply draws_ctx_call|intros _]).
  apply draws_ctx_call.
Qed.

Lemma draws_draw s :
  is_Some (canvas s) -> links_valid s ->
  draws (1 + ((if bounded s then 4 else 0) +
              (4 * length (objects s) + 5 * length (links s)))) draw s.
Proof.
  intros [c Hc] Hl. unfold draw.
  assert (Hcv : forall log,
    the_canvas (set_ctx (Some log) s) = (set_ctx (Some log) s, Normal c)).
  { intros log. unfold the_canvas. cbn. by rewrite Hc. }
  intros log0. revert log0.
  change (draws (1 + ((if bounded s then 4 else 0) +
             (4 * length (objects s) + 5 * length (links s))))
            (_ <- the_ctx ;; c <- the_canvas ;;
             ctx_call (clearRect #0 #0 (width c) (height c)) ;;
             b <- get bounded ;;
             (if b then
                ctx_call (strokeStyle "white") ;;
                ctx_call beginPath ;;
                c <- the_canvas ;;
                ctx_call (arc (width c /. #2) (height c /. #2) #250 #0
                            (#2 *. Math_PI)) ;;
                ctx_call stroke
              else ret tt) ;;
             objs <- get objects ;;
             for_of objs SimObject_draw ;;
             lnks <- get links ;;
             for_of lnks Link_draw) s).
  apply (draws_bind 0); [intros log; by exists [], log; rewrite (right_id_L [] (++))|intros _].
  apply (draws_read _ _ _ _ c Hcv).
  apply (draws_bind 1); [apply draws_ctx_call|intros _].
  apply (draws_read _ _ _ _ (bounded s)); [reflexivity|].
  apply draws_bind.
  - destruct (bounded s); [|apply draws_ret].
    apply (draws_bind 1 3); [apply draws_ctx_call|intros _].
    apply (draws_bind 1 2); [apply draws_ctx_call|intros _].
    apply (draws_read _ _ _ _ c Hcv).
    apply (draws_bind 1 1); [apply draws_ctx_call|intros _].
    apply draws_ctx_call.
  - intros _. apply (draws_read _ _ _ _ (objects s)); [reflexivity|].
    apply draws_bind.
    + apply draws_for_of. intros o _. apply draws_SimObject_draw.
    + intros _. apply (draws_read _ _ _ _ (links s)); [reflexivity|].
      apply draws_for_of. intros l Hin.
      unfold links_valid in Hl. rewrite Forall_forall in Hl.
      destruct (Hl l Hin) as (Ha & Hb & _). by apply draws_Link_draw.
Qed.

(** X19. [draw()] does not touch the scene. With a canvas and a context
    attached and every link joining objects of the store, it returns,
    leaves every field of the simulation but the context as it is, and
    makes [1 + 4 * objects + 5 * links] calls on the context, and 4 more
    when the scene is bounded. *)
Theorem draw_frame s log :
  is_Some (canvas s) ->
  ctx s = Some log ->
  links_valid s ->
  exists log',
    draw s = (set_ctx (Some (log ++ log')) s, Normal tt) /\
    length log' =
      1 + ((if bounded s then 4 else 0) +
           (4 * length (objects s) + 5 * length (links s))).
Proof.
  intros Hc Hx Hl.
  destruct (draws_draw s Hc Hl log) as (log' & [] & E & Hlen).
  exists log'. split; [|exact Hlen].
  replace (set_ctx (Some log) s) with s in E; [exact E|].
  destruct s. cbn in Hx. by rewrite Hx.
Qed.

(** *** More on runs and ticks *)

Lemma updates_cons dt dts s :
  bounded s = false -> updates (dt :: dts) s = updates dts (advance dt s).
Proof.
  intros Hb. unfold updates. cbn [for_of].
  refine (bind_Normal (update dt) (fun _ => for_of dts update) s _ tt _).
  by rewrite update_eq, Hb.
Qed.

(** [step_keeps_with], with the spawn of this very tick. *)
Lemma step_keeps_at (P : Simulation -> Prop) t h r s :
  (forall s' x, P s' -> P (set_t x s')) ->
  ctx_stable P ->
  (forall s' x, P s' -> P (set_id x s')) ->
  (forall s' dt, P s' -> P (advance dt s')) ->
  (forall s', P s' ->
     P (set_objects (applyGravity (gravity s') (objects s')) s')) ->
  (forall s', P s' -> P (spawn t (step_dt (Simulation_t s) t) r s').1) ->
  P s -> P (step t h r s).1.
Proof.
  intros Ht Hx Hid Hadv Hg Hsp Hs. rewrite step_eq. cbv zeta.
  apply (triple_fst P _ P); [|apply Ht, Hs].
  eapply triple_bind.
  - apply keeps_for_range. intros _. apply keeps_update; auto.
  - intros ?. apply triple_after_substeps; auto.
    intros s' Hs'. specialize (Hsp s' Hs').
    pose proof (spawn_Normal t (step_dt (Simulation_t s) t) r s') as Hn.
    destruct (spawn _ _ _ s') as [s'' [[]|e]]; [exact Hsp|discriminate].
Qed.

(** [fire_keeps_with], for events whose random numbers satisfy [R]. *)
Lemma fire_keeps_random (P : Simulation -> Prop) (R : num -> Prop) :
  (forall s x, P s -> P (set_t x s)) ->
  (forall s x, P s -> P (set_ctx x s)) ->
  (forall s x, P s -> P (set_canvas x s)) ->
  (forall s x, P s -> P (set_id x s)) ->
  (forall s x, P s -> P (set_playing x s)) ->
  (forall s x, P s -> P (set_bounded x s)) ->
  (forall s x, P s -> P (set_collisions x s)) ->
  (forall s dt, P s -> P (advance dt s)) ->
  (forall s, P s -> P (set_objects (applyGravity (gravity s) (objects s)) s)) ->
  (forall s t dt r, R r -> P s -> P (spawn t dt r s).1) ->
  forall s e,
    match e with
    | Tick _ _ r | Start _ _ r => R r
    | _ => True
    end ->
    P s -> P (fire s e).
Proof.
  intros Ht Hx Hc Hid Hp Hb Hco Hadv Hg Hsp s e He Hs.
  assert (Hstep : forall s' t h r, R r -> P s' -> P (step t h r s').1).
  { intros s' t h r Hr Hs'. apply step_keeps_at; auto.
    intros s0 c. apply Hx. }
  destruct e as [t h r|c h r| | |]; cbn [fire].
  - by apply Hstep.
  - rewrite start_eq. apply Hstep; [exact He|]. apply Hp. destruct c; auto.
  - by apply Hp.
  - by apply Hb.
  - by apply Hco.
Qed.

Lemma updates_length dts s :
  length (objects (updates dts s).1) = length (objects s).
Proof.
  set (P := fun s' : Simulation => length (objects s') = length (objects s)).
  apply (triple_fst P (updates dts) P); [|reflexivity].
  apply keeps_for_of. intros dt. apply keeps_update.
  - intros s' H. unfold P, advance. cbn. by rewrite substep_length.
  - intros s' H _. unfold P. cbn. unfold applyGravity. by rewrite length_fmap.
Qed.

(** [spawn] reads the scenario and the objects only. *)
Lemma spawn_same t dt r s s' :
  simType s' = simType s -> objects s' = objects s ->
  objects (spawn t dt r s').1 = objects (spawn t dt r s).1.
Proof.
  intros Hty Ho. unfold spawn, bind, get, modify, ret. simpl. rewrite Hty.
  destruct (simType s); simpl; try exact Ho.
  rewrite Ho.
  destruct ((nrem t #500 <. dt *. #1000) && (length (objects s) <? 100));
    simpl; by rewrite ?Ho.
Qed.


(** With a drawing surface attached, a tick returns, and the objects it
    leaves are those that [spawn] leaves when it runs on the objects of the
    substeps. *)
Lemma step_then_spawn t h r s :
  attached s ->
  let dt := step_dt (Simulation_t s) t in
  exists s1,
    updates (replicate substeps (step_subDt dt)) (set_t (Some t) s)
      = (s1, Normal tt) /\
    s1 = set_objects (objects s1) (set_t (Some t) s) /\
    (step t h r s).2 = Normal tt /\
    objects (step t h r s).1 = objects (spawn t dt r s1).1.
Proof.
  intros [Hc Hx] dt.
  destruct (updates_return (replicate substeps (step_subDt dt))
              (set_t (Some t) s)) as (s1 & H1 & E1); [by right|].
  set (P := fun s' : Simulation =>
              attached s' /\ simType s' = simType s1 /\
              objects s' = objects s1).
  set (Q := fun s' : Simulation => objects s' = objects (spawn t dt r s1).1).
  assert (HP : P s1).
  { split; [|split; reflexivity]. rewrite E1. split; assumption. }
  assert (HT : triple P (after_substeps t dt h r)
                 (fun _ => Q) (fun _ => False)).
  { apply triple_after_substeps.
    - intros s' c [[Hc' _] Ho]. split; [split|]; [exact Hc'|by eexists|exact Ho].
    - intros s' x Hs'. exact Hs'.
    - intros s' [[_ [c Hx']] _] Hn. cbn in Hn; congruence.
    - intros s' [[[c Hc'] _] _] Hn. cbn in Hn; congruence.
    - intros s' (_ & Hty & Ho).
      pose proof (spawn_Normal t dt r s') as Hn.
      pose proof (spawn_same t dt r s1 s' Hty Ho) as Hs.
      destruct (spawn t dt r s') as [s'' [[]|e]]; [exact Hs|discriminate]. }
  specialize (HT s1 HP).
  exists s1. split; [exact H1|]. split; [exact E1|].
  rewrite step_eq. cbv zeta. fold dt.
  rewrite (bind_Normal _ _ _ s1 tt);
    [|rewrite for_range_updates; exact H1].
  destruct (after_substeps _ _ _ _ s1) as [s' [[]|e]]; [|contradiction].
  split; [reflexivity|exact HT].
Qed.

End Coverage.

(** ** More facts of exact arithmetic *)

Module ExactCoverage.
Import Exact Runs ExactFacts.
#[local] Existing Instance R_Number.
#[local] Existing Instance R_NumberExt.
#[local] Arguments IZR : simpl never.
Local Open Scope R_scope.

Ltac vec :=
  repeat match goal with v : Vec2 |- _ => destruct v end;
  unfold Vec2_add, Vec2_sub, Vec2_scale; cbn; f_equal; try ring.

Lemma neqb_false (d : R) : d <> 0 -> (d === #0) = false.
Proof. intros H. cbn. by destruct (Req_dec_T d 0). Qed.

Lemma nltb_true (x y : R) : x < y -> (x <. y) = true.
Proof. intros H. cbn. by destruct (Rlt_dec x y). Qed.

Lemma nltb_false (x y : R) : ~ x < y -> (x <. y) = false.
Proof. intros H. cbn. by destruct (Rlt_dec x y). Qed.

Lemma length_positive (pa pb : Vec2) :
  pa <> pb -> 0 < Vec2_length (Vec2_sub pb pa).
Proof.
  intros H. pose proof (length_nonneg (Vec2_sub pb pa)).
  assert (Vec2_length (Vec2_sub pb pa) <> 0)
    by (intros E; apply H, length_zero, E).
  lra.
Qed.

Lemma length_rescale (axis : Vec2) (t : R) :
  0 < Vec2_length axis -> 0 <= t ->
  Vec2_length (Vec2_scale axis (t / Vec2_length axis)) = t.
Proof.
  intros Hd Ht. rewrite length_scale.
  rewrite Rabs_pos_eq.
  - change (@num R_Number) with R. field. lra.
  - unfold Rdiv. apply Rmult_le_pos; [exact Ht|].
    apply Rlt_le, Rinv_0_lt_compat, Hd.
Qed.

Lemma sub_Link_delta (pa pb : Vec2) (t : R) :
  pa <> pb ->
  Vec2_sub (Vec2_sub pb pa) (Link_delta pa pb t) =
    Vec2_scale (Vec2_sub pb pa) (t / Vec2_length (Vec2_sub pb pa)).
Proof.
  intros H. pose proof (length_positive pa pb H) as Hd.
  unfold Link_delta. cbv zeta.
  remember (Vec2_length (Vec2_sub pb pa)) as d eqn:Ed. clear Ed.
  remember (Vec2_sub pb pa) as axis eqn:Ea. clear Ea.
  destruct axis as [x y]. unfold Vec2_sub, Vec2_scale. cbn.
  f_equal; field; lra.
Qed.

Lemma add_collide_delta (pa pb : Vec2) (m : R) :
  pb <> pa ->
  Vec2_add (Vec2_sub pa pb) (collide_delta pa pb m) =
    Vec2_scale (Vec2_sub pa pb) (m / Vec2_length (Vec2_sub pa pb)).
Proof.
  intros H. pose proof (length_positive pb pa H) as Hd.
  unfold collide_delta. cbv zeta.
  remember (Vec2_length (Vec2_sub pa pb)) as d eqn:Ed. clear Ed.
  remember (Vec2_sub pa pb) as axis eqn:Ea. clear Ea.
  destruct axis as [x y]. unfold Vec2_add, Vec2_scale. cbn.
  f_equal; field; lra.
Qed.

(** *** A link after [apply()] *)

Lemma Link_apply_reaches l (objs : Store) oa ob :
  objs !! Link_a l = Some oa ->
  objs !! Link_b l = Some ob ->
  position oa <> position ob ->
  0 <= Link_target l ->
  frozen oa && frozen ob = false ->
  exists oa' ob',
    Link_apply l objs !! Link_a l = Some oa' /\
    Link_apply l objs !! Link_b l = Some ob' /\
    Vec2_length (Vec2_sub (position ob') (position oa')) = Link_target l /\
    identity_of oa' = identity_of oa /\ identity_of ob' = identity_of ob /\
    (frozen oa = true -> oa' = oa) /\
    (frozen ob = true -> ob' = ob).
Proof.
  intros Ha Hb Hne Ht Hf.
  assert (Hab : Link_a l <> Link_b l).
  { intros E. rewrite E, Hb in Ha. congruence. }
  destruct (Link_apply_resolved l objs oa ob Ha Hb Hab) as (HA & HB & _).
  eexists _, _. split; [exact HA|]. split; [exact HB|].
  pose proof (length_positive _ _ Hne) as Hd.
  assert (Hgoal : forall p q : Vec2,
    Vec2_sub q p =
      Vec2_sub (Vec2_sub (position ob) (position oa))
        (Link_delta (position oa) (position ob) (Link_target l)) ->
    Vec2_length (Vec2_sub q p) = Link_target l).
  { intros p q ->. rewrite sub_Link_delta by exact Hne.
    by apply length_rescale. }
  destruct (frozen oa) eqn:Hfa; [|destruct (frozen ob) eqn:Hfb].
  - destruct (frozen ob); [discriminate|].
    repeat split; try discriminate. apply Hgoal. cbn [position set_position].
    generalize (Link_delta (position oa) (position ob) (Link_target l)).
    generalize (position oa), (position ob). intros. vec.
  - repeat split; try discriminate. apply Hgoal. cbn [position set_position].
    generalize (Link_delta (position oa) (position ob) (Link_target l)).
    generalize (position oa), (position ob). intros. vec.
  - repeat split; try discriminate. apply Hgoal. cbn [position set_position].
    generalize (mass oa /. (mass oa +. mass ob)).
    generalize (Link_delta (position oa) (position ob) (Link_target l)).
    generalize (position oa), (position ob). intros. vec.
Qed.

(** X8. One [apply()] satisfies its link exactly: when the two ends are at
    different positions and are not both anchored, the distance between
    them after the call is the target length (taken non-negative); an
    anchored end is not touched, and a free end changes only its
    position. *)
Theorem Link_apply_reaches_target l (objs : Store) oa ob :
  objs !! Link_a l = Some oa ->
  objs !! Link_b l = Some ob ->
  position oa <> position ob ->
  0 <= Link_target l ->
  frozen oa && frozen ob = false ->
  (frozen oa = false -> frozen ob = false -> mass oa + mass ob <> 0) ->
  exists oa' ob',
    Link_apply l objs !! Link_a l = Some oa' /\
    Link_apply l objs !! Link_b l = Some ob' /\
    Vec2_length (Vec2_sub (position ob') (position oa')) = Link_target l /\
    identity_of oa' = identity_of oa /\ identity_of ob' = identity_of ob /\
    (frozen oa = true -> oa' = oa) /\
    (frozen ob = true -> ob' = ob).
Proof. intros Ha Hb Hne Ht Hf _. by apply Link_apply_reaches. Qed.

(** X9. Between two free ends, [apply()] keeps the centre of mass:
    [massA * A.position + massB * B.position] is the same after the call as
    before it. *)
Theorem Link_apply_keeps_center_of_mass l (objs : Store) oa ob :
  objs !! Link_a l = Some oa ->
  objs !! Link_b l = Some ob ->
  position oa <> position ob ->
  frozen oa = false ->
  frozen ob = false ->
  mass oa + mass ob <> 0 ->
  exists oa' ob',
    Link_apply l objs !! Link_a l = Some oa' /\
    Link_apply l objs !! Link_b l = Some ob' /\
    Vec2_add (Vec2_scale (position oa') (mass oa))
             (Vec2_scale (position ob') (mass ob)) =
    Vec2_add (Vec2_scale (position oa) (mass oa))
             (Vec2_scale (position ob) (mass ob)).
Proof.
  intros Ha Hb Hne Hfa Hfb Hm.
  assert (Hab : Link_a l <> Link_b l).
  { intros E. rewrite E, Hb in Ha. congruence. }
  destruct (Link_apply_free l objs oa ob Ha Hb Hab Hfa Hfb) as (HA & HB & _).
  eexists _, _. split; [exact HA|]. split; [exact HB|].
  cbn [position set_position].
  generalize (Link_delta (position oa) (position ob) (Link_target l)).
  generalize (position oa), (position ob). intros [ax ay] [bx bby] [dx dy].
  unfold Vec2_add, Vec2_sub, Vec2_scale. cbn.
  f_equal; field; exact Hm.
Qed.

Lemma Link_delta_at_target (pa pb : Vec2) (t : R) :
  Vec2_length (Vec2_sub pb pa) = t -> Link_delta pa pb t = (0, 0).
Proof.
  intros H. unfold Link_delta. cbv zeta. rewrite H.
  generalize (Vec2_sub pb pa). intros [x y].
  unfold Vec2_scale. cbn. f_equal; ring.
Qed.

Lemma set_position_same (p : Vec2) (o : SimObject) :
  p = position o -> set_position p o = o.
Proof. intros ->. by destruct o. Qed.

(** A link that is at its target length is left alone. *)
Lemma Link_apply_at_target l (objs : Store) oa ob :
  objs !! Link_a l = Some oa ->
  objs !! Link_b l = Some ob ->
  Link_a l <> Link_b l ->
  Vec2_length (Vec2_sub (position ob) (position oa)) = Link_target l ->
  Link_apply l objs = objs.
Proof.
  intros Ha Hb Hab Hd.
  destruct (Link_apply_resolved l objs oa ob Ha Hb Hab) as (HA & HB & Hk).
  rewrite (Link_delta_at_target _ _ _ Hd) in HA, HB.
  apply list_eq. intros k.
  destruct (decide (k = Link_a l)) as [->|Hka];
    [|destruct (decide (k = Link_b l)) as [->|Hkb]].
  - rewrite HA, Ha. f_equal.
    destruct (frozen oa); [reflexivity|].
    destruct (frozen ob); apply set_position_same;
      generalize (position oa); intros [x y];
      unfold Vec2_add, Vec2_sub, Vec2_scale; cbn; f_equal; ring.
  - rewrite HB, Hb. f_equal.
    destruct (frozen oa); [|destruct (frozen ob); [reflexivity|]];
      apply set_position_same;
      generalize (position ob); intros [x y];
      unfold Vec2_add, Vec2_sub, Vec2_scale; cbn; f_equal; ring.
  - by apply Hk.
Qed.

(** X10. [apply()] is idempotent: applied again to the store it has just
    corrected, it changes nothing, since the link is then at its (positive)
    target length. *)
Theorem Link_apply_idempotent l (objs : Store) oa ob :
  objs !! Link_a l = Some oa ->
  objs !! Link_b l = Some ob ->
  position oa <> position ob ->
  0 < Link_target l ->
  frozen oa && frozen ob = false ->
  (frozen oa = false -> frozen ob = false -> mass oa + mass ob <> 0) ->
  Link_apply l (Link_apply l objs) = Link_apply l objs.
Proof.
  intros Ha Hb Hne Ht Hf _.
  assert (Hab : Link_a l <> Link_b l).
  { intros E. rewrite E, Hb in Ha. congruence. }
  destruct (Link_apply_reaches l objs oa ob Ha Hb Hne (Rlt_le _ _ Ht) Hf)
    as (oa' & ob' & HA & HB & Hd & _).
  exact (Link_apply_at_target l _ oa' ob' HA HB Hab Hd).
Qed.

(** *** A pair after collision resolution *)

Lemma collide_overlapping i j (objs : Store) a b :
  objs !! i = Some a ->
  objs !! j = Some b ->
  i <> j ->
  position a <> position b ->
  Vec2_length (Vec2_sub (position a) (position b)) < radius a + radius b ->
  let delta := collide_delta (position a) (position b) (radius a + radius b) in
  let deltaA := Vec2_scale delta (mass a / (mass a + mass b)) in
  let deltaB := Vec2_sub delta deltaA in
  let a' :=
    if frozen a then a
    else if frozen b then set_position (Vec2_add (position a) delta) a
    else set_position (Vec2_add (position a) deltaB) a in
  let b' :=
    if frozen a then set_position (Vec2_sub (position b) delta) b
    else if frozen b then b
    else set_position (Vec2_sub (position b) deltaA) b in
  collide i j objs !! i = Some a' /\
  collide i j objs !! j = Some b'.
Proof.
  intros Hi Hj Hij Hne Hlt.
  assert (Hd : 0 < Vec2_length (Vec2_sub (position a) (position b)))
    by (apply length_positive; congruence).
  destruct (collide_resolved i j objs a b Hi Hj Hij) as (HA & HB & _).
  - apply neqb_false. lra.
  - by apply nltb_true.
  - by split.
Qed.

(** X11. Collision resolution of an overlapping pair (at different
    positions, not both anchored) leaves the two objects exactly the sum of
    their radii apart; an anchored object of the pair is not touched, and a
    free one changes only its position. *)
Theorem collide_separates i j (objs : Store) a b :
  objs !! i = Some a ->
  objs !! j = Some b ->
  i <> j ->
  position a <> position b ->
  Vec2_length (Vec2_sub (position a) (position b)) < radius a + radius b ->
  frozen a && frozen b = false ->
  (frozen a = false -> frozen b = false -> mass a + mass b <> 0) ->
  exists a' b',
    collide i j objs !! i = Some a' /\
    collide i j objs !! j = Some b' /\
    Vec2_length (Vec2_sub (position a') (position b')) = radius a + radius b /\
    identity_of a' = identity_of a /\ identity_of b' = identity_of b /\
    (frozen a = true -> a' = a) /\
    (frozen b = true -> b' = b).
Proof.
  intros Hi Hj Hij Hne Hlt Hf _.
  destruct (collide_overlapping i j objs a b Hi Hj Hij Hne Hlt) as (HA & HB).
  eexists _, _. split; [exact HA|]. split; [exact HB|].
  assert (Hd : 0 < Vec2_length (Vec2_sub (position a) (position b)))
    by (apply length_positive; congruence).
  assert (Hgoal : forall p q : Vec2,
    Vec2_sub p q =
      Vec2_add (Vec2_sub (position a) (position b))
        (collide_delta (position a) (position b) (radius a + radius b)) ->
    Vec2_length (Vec2_sub p q) = radius a + radius b).
  { intros p q ->. rewrite add_collide_delta by congruence.
    apply length_rescale; [exact Hd|lra]. }
  destruct (frozen a) eqn:Hfa; [|destruct (frozen b) eqn:Hfb].
  - destruct (frozen b); [discriminate|].
    repeat split; try discriminate. apply Hgoal. cbn [position set_position].
    generalize (collide_delta (position a) (position b) (radius a + radius b)).
    generalize (position a), (position b). intros. vec.
  - repeat split; try discriminate. apply Hgoal. cbn [position set_position].
    generalize (collide_delta (position a) (position b) (radius a + radius b)).
    generalize (position a), (position b). intros. vec.
  - repeat split; try discriminate. apply Hgoal. cbn [position set_position].
    generalize (mass a / (mass a + mass b)).
    generalize (collide_delta (position a) (position b) (radius a + radius b)).
    generalize (position a), (position b). intros. vec.
Qed.

(** X12. Collision resolution of two free overlapping objects keeps their
    centre of mass; when their masses are equal, it keeps their midpoint. *)
Theorem collide_keeps_center_of_mass i j (objs : Store) a b :
  objs !! i = Some a ->
  objs !! j = Some b ->
  i <> j ->
  position a <> position b ->
  Vec2_length (Vec2_sub (position a) (position b)) < radius a + radius b ->
  frozen a = false ->
  frozen b = false ->
  mass a + mass b <> 0 ->
  exists a' b',
    collide i j objs !! i = Some a' /\
    collide i j objs !! j = Some b' /\
    Vec2_add (Vec2_scale (position a') (mass a))
             (Vec2_scale (position b') (mass b)) =
    Vec2_add (Vec2_scale (position a) (mass a))
             (Vec2_scale (position b) (mass b)) /\
    (mass a = mass b ->
     Vec2_add (position a') (position b') =
     Vec2_add (position a) (position b)).
Proof.
  intros Hi Hj Hij Hne Hlt Hfa Hfb Hm.
  destruct (collide_overlapping i j objs a b Hi Hj Hij Hne Hlt) as (HA & HB).
  rewrite Hfa, Hfb in HA, HB.
  eexists _, _. split; [exact HA|]. split; [exact HB|].
  cbn [position set_position].
  generalize (collide_delta (position a) (position b) (radius a + radius b)).
  generalize (position a), (position b). intros [ax ay] [bx bby] [dx dy].
  unfold Vec2_add, Vec2_sub, Vec2_scale. cbn. split.
  - f_equal; field; exact Hm.
  - intros E. revert Hm. rewrite E. intros Hm. f_equal; field; lra.
Qed.

(** *** Containment *)

Lemma clamp_vector (center dir : Vec2) (d t : R) :
  d <> 0 ->
  Vec2_sub (Vec2_add center (Vec2_scale (Vec2_scale dir (1 / d)) t)) center =
    Vec2_scale dir (t / d).
Proof.
  intros Hd. destruct center as [cx cy], dir as [x y].
  unfold Vec2_add, Vec2_sub, Vec2_scale. cbn. f_equal; field; exact Hd.
Qed.

(** X13. The containment clamp, for an object that fits in the circle
    ([radius <= r]): afterwards the object is at most [r - radius] from the
    centre; an object that already was is returned as it is; clamping again
    changes nothing; and only the position is ever changed. *)
Theorem constrain_inside (center : Vec2) (r : R) (o : SimObject) :
  radius o <= r ->
  let o' := constrain center r o in
  Vec2_length (Vec2_sub (position o') center) <= r - radius o /\
  (Vec2_length (Vec2_sub (position o) center) <= r - radius o -> o' = o) /\
  constrain center r o' = o' /\
  identity_of o' = identity_of o.
Proof.
  intros Hr o'.
  assert (Hin : forall o0 : SimObject,
    Vec2_length (Vec2_sub (position o0) center) <= r - radius o0 ->
    constrain center r o0 = o0).
  { intros o0 H. unfold constrain. cbv zeta.
    rewrite nltb_false; [reflexivity|].
    intros Hlt. exact (Rlt_not_le _ _ Hlt H). }
  assert (H1 : Vec2_length (Vec2_sub (position o') center) <= r - radius o /\
               identity_of o' = identity_of o).
  { subst o'. unfold constrain. cbv zeta.
    destruct (Rlt_dec (r - radius o)
                (Vec2_length (Vec2_sub (position o) center))) as [Hlt|Hge].
    - rewrite nltb_true by exact Hlt. split; [|reflexivity].
      cbn [position set_position].
      remember (Vec2_length (Vec2_sub (position o) center)) as d eqn:Ed.
      assert (Hd : 0 < d) by lra.
      rewrite clamp_vector by lra.
      rewrite Ed.
      rewrite length_rescale; [apply Rle_refl|by rewrite <- Ed|cbn; lra].
    - rewrite nltb_false by exact Hge. split; [lra|reflexivity]. }
  destruct H1 as [H1 H2]. split; [exact H1|]. split; [apply Hin|]. split.
  - apply Hin. replace (radius o') with (radius o); [exact H1|].
    unfold identity_of in H2. congruence.
  - exact H2.
Qed.

(** *** Integration over many substeps *)

(** X14. A free particle at rest ([oldPosition = position], no accumulated
    acceleration) stays exactly as it is under any number of
    [updatePosition] calls, whatever their [dt]. *)
Theorem rest_is_kept (dts : list R) (o : SimObject) :
  kind o = Free ->
  oldPosition o = position o ->
  accleration o = (0, 0) ->
  foldl (fun o' dt => updatePosition dt o') o dts = o.
Proof.
  intros Hk Ho Ha. induction dts as [|dt dts IH]; [reflexivity|].
  cbn [foldl].
  replace (updatePosition (N := R_Number) dt o) with o; [exact IH|].
  unfold updatePosition. rewrite Hk. unfold SimObject_updatePosition.
  destruct o as [k [px py] [ox oy] [ax ay] rad m]. cbn in Hk, Ho, Ha. cbn.
  injection Ho as -> ->. injection Ha as -> ->.
  unfold set_accleration, set_position, set_oldPosition. cbn.
  f_equal. unfold Vec2_add, Vec2_sub, Vec2_scale. cbn. f_equal; lra.
Qed.

Lemma fallen_next (p0 g : Vec2) (dt : R) (k : nat) (o : SimObject) :
  fallen p0 g dt k o ->
  fallen p0 g dt (S k) (updatePosition dt (accelerate g o)).
Proof.
  intros (Hk & Hp & Ho & Ha). unfold updatePosition, accelerate.
  cbn [kind set_accleration]. rewrite Hk.
  unfold SimObject_updatePosition. unfold fallen.
  cbn [kind position oldPosition accleration set_accleration set_position
       set_oldPosition].
  rewrite Hp, Ho, Ha, S_INR. split; [exact Hk|].
  destruct p0 as [px py], g as [gx gy].
  unfold Vec2_add, Vec2_sub, Vec2_scale. cbn.
  repeat split; f_equal; field.
Qed.

Lemma free_fall_from (n k : nat) (p0 : Vec2) (dt : R) s i o :
  links s = [] -> bounded s = false -> collisions s = false ->
  objects s !! i = Some o ->
  fallen p0 (gravity s) dt k o ->
  exists s' o',
    updates (replicate n dt) s = (s', Normal tt) /\
    objects s' !! i = Some o' /\
    fallen p0 (gravity s) dt (k + n) o'.
Proof.
  revert k s o. induction n as [|n IH]; intros k s o Hl Hb Hc Hi Hf.
  - exists s, o. rewrite Nat.add_0_r.
    split; [reflexivity|split; assumption].
  - destruct (IH (S k) (advance (N := R_Number) dt s)
                (updatePosition (N := R_Number) dt (accelerate (gravity s) o)))
      as (s' & o' & H1 & H2 & H3); try assumption.
    + unfold advance, substep. cbn. rewrite Hb, Hc, Hl. cbn.
      unfold updatePositions, applyGravity.
      rewrite !list_lookup_fmap, Hi. reflexivity.
    + by apply fallen_next.
    + exists s', o'. replace (k + S n)%nat with (S k + n)%nat by lia.
      split; [|split; [exact H2|exact H3]].
      exact (eq_trans
               (updates_cons (N := R_Number) dt (replicate n dt) s Hb) H1).
Qed.

(** X15. Free fall: in a scene without links, containment or collisions, a
    free particle that starts at rest is, after [n] calls of [update(dt)],
    displaced by [gravity * dt^2 * n (n + 1) / 2] (that is, by
    [gravity * t^2 / 2 * (1 + 1 / n)] over the time [t = n * dt]). *)
Theorem free_fall (n : nat) (dt : R) s i o :
  links s = [] -> bounded s = false -> collisions s = false ->
  objects s !! i = Some o ->
  kind o = Free ->
  oldPosition o = position o ->
  accleration o = (0, 0) ->
  exists s' o',
    updates (replicate n dt) s = (s', Normal tt) /\
    objects s' !! i = Some o' /\
    position o' =
      Vec2_add (position o)
        (Vec2_scale (gravity s) (dt * dt * (INR n * (INR n + 1) / 2))).
Proof.
  intros Hl Hb Hc Hi Hk Ho Ha.
  destruct (free_fall_from n 0 (position o) dt s i o Hl Hb Hc Hi)
    as (s' & o' & H1 & H2 & _ & H3 & _).
  - split; [exact Hk|]. rewrite Ho, Ha. cbn [INR].
    destruct (position o) as [px py], (gravity s) as [gx gy].
    unfold Vec2_add, Vec2_scale. cbn. repeat split; f_equal; lra.
  - exists s', o'. repeat split; assumption.
Qed.

(** *** Radii and masses *)

Lemma Forall_identity_of (Q : SimObject -> Prop) (objs objs' : Store) :
  (forall o o', identity_of o = identity_of o' -> Q o -> Q o') ->
  identity_of <$> objs' = identity_of <$> objs ->
  Forall Q objs -> Forall Q objs'.
Proof.
  intros HQ E H. apply Forall_lookup. intros i o' Hi.
  destruct (identity_of_lookup objs objs' i o' E Hi) as (o & Ho & Eo).
  exact (HQ o o' Eo (Forall_lookup_1 _ _ _ _ H Ho)).
Qed.

Lemma sized_identity_of o o' : identity_of o = identity_of o' -> sized o -> sized o'.
Proof.
  unfold identity_of, sized. intros [= _ <- <-]. done.
Qed.

Lemma spawned_size_identity_of o o' :
  identity_of o = identity_of o' -> spawned_size o -> spawned_size o'.
Proof.
  unfold identity_of, spawned_size. intros [= _ <- <-]. done.
Qed.

Lemma new_SimObject_sized pos (r : R) :
  0 < r -> sized (new_SimObject pos (Some r) None).
Proof. intros Hr. unfold sized. cbn. split; [lra|nra]. Qed.

Lemma foldl_sized {A} (f : Store * list Link -> A -> Store * list Link) xs :
  (forall st x, Forall sized st.1 -> Forall sized (f st x).1) ->
  forall st, Forall sized st.1 -> Forall sized (foldl f st xs).1.
Proof.
  intros Hf. induction xs as [|x xs IH]; intros st Hst; [exact Hst|].
  simpl. apply IH, Hf, Hst.
Qed.

Lemma new_Simulation_sized ty : Forall sized (objects (new_Simulation ty)).
Proof.
  assert (H5 : forall pos, sized (new_SimObject pos (Some #5) None))
    by (intros pos; apply new_SimObject_sized; cbn; lra).
  assert (HF : sized (new_FrozenSimObject (#300, #200) (Some #5) None))
    by (unfold sized; cbn; split; lra).
  destruct ty; unfold new_Simulation; cbv zeta.
  - match goal with |- context [foldl ?f ?st ?xs] =>
      pose proof (foldl_sized f xs) as H; specialize (H ltac:(
        intros [objs lnks] i Ho; cbn;
        repeat apply Forall_app_2; try exact Ho;
        apply Forall_singleton, H5) st);
      destruct (foldl f st xs) as [objs lnks] end.
    apply H, Forall_singleton, HF.
  - match goal with |- context [foldl ?f ?st ?xs] =>
      pose proof (foldl_sized f xs) as H; specialize (H ltac:(
        intros [objs lnks] i Ho; unfold LongPendulum_body;
        destruct (last objs) as [prev|]; [|exact Ho];
        destruct (position prev); cbn;
        apply Forall_app_2; [exact Ho|];
        apply Forall_singleton, H5) st);
      destruct (foldl f st xs) as [objs lnks] end.
    cbn. apply Forall_alter.
    + apply H, Forall_singleton, HF.
    + intros o _ [Ho _]. unfold sized. cbn. split; [exact Ho|lra].
  - constructor.
Qed.

(** X16. Radii and masses stay positive: in every scenario, whatever
    events happen (with [Math.random()] in [[0, 1)]), every object has a
    positive radius and a positive mass; and every object of the bounded
    scene has a radius in [[10, 30)] and the square of its radius as its
    mass. *)
Theorem sizes_stay_positive ty evs :
  Forall (fun e => match e with
                   | Tick _ _ r | Start _ _ r => unit_random r
                   | _ => True
                   end) evs ->
  Forall sized (objects (run evs (new_Simulation ty))) /\
  (ty = BoundedObjects ->
   Forall spawned_size (objects (run evs (new_Simulation ty)))).
Proof.
  intros Hev.
  assert (Hrun : forall (Q : SimObject -> Prop),
    (forall o o', identity_of o = identity_of o' -> Q o -> Q o') ->
    (forall r, unit_random r ->
       Q (new_SimObject (#350, #100) (Some (r *. #20 +. #10)) None)) ->
    forall s, Forall Q (objects s) -> Forall Q (objects (run evs s))).
  { intros Q Hid Hnew. induction Hev as [|e evs He Hev IH]; intros s Hs;
      [exact Hs|].
    cbn [run foldl]. apply IH.
    apply (fire_keeps_random (fun s' => Forall Q (objects s')) unit_random);
      try (intros; assumption); try exact He.
    - intros s' dt H.
      exact (Forall_identity_of Q _ _ Hid (identity_of_substep dt s') H).
    - intros s' H.
      exact (Forall_identity_of Q _ _ Hid (identity_of_applyGravity _ _) H).
    - intros s' t dt r Hr H.
      destruct (spawn_appends t dt r s') as [->|(_ & _ & ->)]; [exact H|].
      cbn. apply Forall_app_2; [exact H|]. apply Forall_singleton, Hnew, Hr. }
  split.
  - apply (Hrun sized sized_identity_of); [|apply new_Simulation_sized].
    intros r [Hr0 Hr1]. apply new_SimObject_sized. cbn. lra.
  - intros ->.
    apply (Hrun spawned_size spawned_size_identity_of); [|constructor].
    intros r [Hr0 Hr1]. unfold spawned_size. cbn. repeat split; lra.
Qed.

(** *** Timestamps *)

Lemma nrem_nonneg (t : R) : 0 <= t -> 0 <= nrem t 500.
Proof.
  intros Ht. cbn. unfold trunc.
  assert (Hq : 0 <= t / 500) by (unfold Rdiv; nra).
  destruct (Rle_dec 0 (t / 500)) as [_|]; [|contradiction].
  destruct (base_Int_part (t / 500)) as [Hle _].
  assert (500 * IZR (Int_part (t / 500)) <= 500 * (t / 500)) by lra.
  replace (500 * (t / 500)) with t in H by field. lra.
Qed.

Lemma spawn_zero_dt (t r : R) s : 0 <= t -> spawn t 0 r s = (s, Normal tt).
Proof.
  intros Ht. unfold spawn, bind, get, modify, ret.
  destruct (simType s); cbn [andb]; try reflexivity.
  rewrite nltb_false; [reflexivity|].
  pose proof (nrem_nonneg t Ht). cbn. cbn in H. lra.
Qed.

(** X17. A tick that computes [dtWall = 0] (as the first two ticks of a
    simulation do) spawns nothing: with a timestamp that is not negative,
    [t % 500 < 0] is false, and the tick leaves the number of objects as it
    is. *)
Theorem zero_dt_tick_spawns_nothing t handle random s :
  0 <= t ->
  step_dt (Simulation_t s) t = 0 ->
  length (objects (step t handle random s).1) = length (objects s).
Proof.
  intros Ht Hdt.
  apply (step_keeps_at
           (fun s' => length (objects s') = length (objects s)));
    [intros s' x H; exact H|intros s' c H; exact H|intros s' x H; exact H
    | | | |reflexivity].
  - intros s' dt H. exact (eq_trans (substep_length dt s') H).
  - intros s' H. refine (eq_trans _ H). apply length_fmap.
  - intros s' H. rewrite Hdt, spawn_zero_dt by exact Ht. exact H.
Qed.

(** X18. [Math.min] caps [dt] from above only. When a simulation that has
    ticked at [p > 20] ms is started again, the tick of [start] runs at
    [t = 0], so [dtWall = -p / 1000] and [subDt = -p / 1000000]: the 1000
    substeps all run with a [dt] whose square, the only way [dt] enters the
    integration, exceeds that of the cap [1 / 50 / 1000]. *)
Theorem restart_is_uncapped cv handle random s p :
  Simulation_t s = Some p ->
  20 < p ->
  let subDt := - p / 1000000 in
  let s0 :=
    set_t (Some 0)
      (set_playing true
         (set_ctx (getContext_2d cv) (set_canvas (Some cv) s))) in
  (exists s1,
     updates (replicate 1000 subDt) s0 = (s1, Normal tt) /\
     (objects (start (Some cv) handle random s).1 = objects s1 \/
      exists o,
        objects (start (Some cv) handle random s).1 = objects s1 ++ [o])) /\
  (1 / 50 / 1000) * (1 / 50 / 1000) < subDt * subDt.
Proof.
  intros Hp Hp20 subDt s0. split; [|unfold subDt; nra].
  rewrite start_eq.
  set (s' := set_playing true
               (set_ctx (getContext_2d cv) (set_canvas (Some cv) s))).
  assert (Hs' : bounded s' = false \/ is_Some (canvas s'))
    by (right; eexists; reflexivity).
  pose proof (step_runs_substeps (lit 0%Z) handle random s' Hs') as H.
  cbv zeta in H.
  assert (E : step_subDt (step_dt (Simulation_t s') (lit 0%Z)) = subDt).
  { change (Simulation_t s') with (Simulation_t s). rewrite Hp.
    change (lit 0%Z) with 0.
    rewrite step_dt_elapsed by lra. rewrite step_subDt_eq.
    rewrite Rmin_left by lra. unfold subDt. lra. }
  rewrite E in H. exact H.
Qed.

(** *** The scenarios as they are constructed *)

Lemma arm_length (x y L theta : R) :
  0 <= L ->
  Vec2_length (Vec2_sub (x + L * cos theta, y + L * sin theta) (x, y)) = L.
Proof.
  intros HL. unfold Vec2_length, Vec2_sub. cbn.
  replace ((x + L * cos theta - x) * (x + L * cos theta - x) +
           (y + L * sin theta - y) * (y + L * sin theta - y))
    with (L * L * (Rsqr (sin theta) + Rsqr (cos theta)))
    by (unfold Rsqr; ring).
  rewrite sin2_cos2, Rmult_1_r. by apply sqrt_square.
Qed.

(** X21. Both pendulum scenarios are constructed unstressed: every link
    has its two ends in the store, exactly its target length apart. *)
Theorem pendulums_start_at_target :
  Forall (at_target (objects (new_Simulation DoublePendulums)))
         (links (new_Simulation DoublePendulums)) /\
  Forall (at_target (objects (new_Simulation LongPendulum)))
         (links (new_Simulation LongPendulum)).
Proof.
  split; cbn;
    repeat (constructor;
            [eexists _, _; split; [reflexivity|]; split; [reflexivity|];
             cbn; apply arm_length; lra|]);
    constructor.
Qed.

(** *** The statements above, on the scenes of the examples *)

Lemma heavy_light_distance :
  Vec2_length (Vec2_sub (position heavy) (position light)) = 8.
Proof.
  unfold Vec2_length, Vec2_sub. cbn.
  replace ((0 - 8) * (0 - 8) + (0 - 0) * (0 - 0)) with (8 * 8) by ring.
  apply sqrt_square. lra.
Qed.

Lemma heavy_light_apart : position heavy <> position light.
Proof. intros H. apply (f_equal fst) in H. cbn in H. lra. Qed.

Lemma heavy_light_masses : mass heavy + mass light <> 0.
Proof. cbn. lra. Qed.

Lemma Link_apply_reaches_target_witness :
  exists oa' ob',
    Link_apply link_0_1 heavy_light !! 0%nat = Some oa' /\
    Link_apply link_0_1 heavy_light !! 1%nat = Some ob' /\
    Vec2_length (Vec2_sub (position ob') (position oa')) = 4.
Proof.
  destruct (Link_apply_reaches_target link_0_1 heavy_light heavy light
              eq_refl eq_refl heavy_light_apart)
    as (oa' & ob' & HA & HB & Hd & _).
  - cbn. lra.
  - reflexivity.
  - intros _ _. exact heavy_light_masses.
  - exists oa', ob'. auto.
Defined.

Lemma Link_apply_keeps_center_of_mass_witness :
  exists oa' ob',
    Link_apply link_0_1 heavy_light !! 0%nat = Some oa' /\
    Link_apply link_0_1 heavy_light !! 1%nat = Some ob' /\
    Vec2_add (Vec2_scale (position oa') 3) (Vec2_scale (position ob') 1) =
    Vec2_add (Vec2_scale (position heavy) 3) (Vec2_scale (position light) 1).
Proof.
  exact (Link_apply_keeps_center_of_mass link_0_1 heavy_light heavy light
           eq_refl eq_refl heavy_light_apart eq_refl eq_refl
           heavy_light_masses).
Defined.

Lemma Link_apply_idempotent_witness :
  Link_apply link_0_1 (Link_apply link_0_1 heavy_light) =
  Link_apply link_0_1 heavy_light.
Proof.
  apply (Link_apply_idempotent link_0_1 heavy_light heavy light);
    first [reflexivity | exact heavy_light_apart | idtac].
  - cbn. lra.
  - intros _ _. exact heavy_light_masses.
Defined.

Lemma heavy_light_overlap :
  Vec2_length (Vec2_sub (position heavy) (position light)) <
  radius heavy + radius light.
Proof. rewrite heavy_light_distance. cbn. lra. Qed.

Lemma collide_separates_witness :
  exists a' b',
    collide 0 1 heavy_light !! 0%nat = Some a' /\
    collide 0 1 heavy_light !! 1%nat = Some b' /\
    Vec2_length (Vec2_sub (position a') (position b')) =
      radius heavy + radius light.
Proof.
  destruct (collide_separates 0 1 heavy_light heavy light eq_refl eq_refl)
    as (a' & b' & HA & HB & Hd & _).
  - discriminate.
  - exact heavy_light_apart.
  - exact heavy_light_overlap.
  - reflexivity.
  - intros _ _. exact heavy_light_masses.
  - exists a', b'. auto.
Defined.

Lemma collide_keeps_center_of_mass_witness :
  exists a' b',
    collide 0 1 heavy_light !! 0%nat = Some a' /\
    collide 0 1 heavy_light !! 1%nat = Some b' /\
    Vec2_add (Vec2_scale (position a') 3) (Vec2_scale (position b') 1) =
    Vec2_add (Vec2_scale (position heavy) 3) (Vec2_scale (position light) 1).
Proof.
  destruct (collide_keeps_center_of_mass 0 1 heavy_light heavy light
              eq_refl eq_refl)
    as (a' & b' & HA & HB & Hc & _).
  - discriminate.
  - exact heavy_light_apart.
  - exact heavy_light_overlap.
  - reflexivity.
  - reflexivity.
  - exact heavy_light_masses.
  - exists a', b'. auto.
Defined.

Lemma constrain_inside_witness :
  radius heavy <= 250 /\
  Vec2_length
    (Vec2_sub (position (constrain (300, 300) 250 heavy)) (300, 300))
  <= 250 - radius heavy.
Proof.
  assert (H : radius heavy <= 250) by (cbn; lra).
  split; [exact H|].
  exact (proj1 (constrain_inside (300, 300) 250 heavy H)).
Defined.

Lemma rest_is_kept_witness :
  foldl (fun o' dt => updatePosition dt o') heavy [1 / 60; 1 / 30] = heavy.
Proof.
  exact (rest_is_kept [1 / 60; 1 / 30] heavy eq_refl eq_refl eq_refl).
Defined.

Lemma free_fall_witness :
  exists s' o',
    updates (replicate 3 (1 / 100)) lone_particle = (s', Normal tt) /\
    objects s' !! 0%nat = Some o' /\
    position o' =
      Vec2_add (position heavy)
        (Vec2_scale (0, 1000)
           (1 / 100 * (1 / 100) * (INR 3 * (INR 3 + 1) / 2))).
Proof.
  exact (free_fall 3 (1 / 100) lone_particle 0%nat heavy
           eq_refl eq_refl eq_refl eq_refl eq_refl eq_refl eq_refl).
Defined.

Lemma zero_dt_tick_spawns_nothing_witness :
  length (objects (step 16 1%nat (1 / 2) page_scene).1) =
  length (objects page_scene).
Proof.
  apply zero_dt_tick_spawns_nothing; [lra|].
  exact (step_dt_fresh 16).
Defined.

Lemma restart_is_uncapped_witness :
  exists s1,
    updates (replicate 1000 (- 1000 / 1000000))
      (set_t (Some 0)
         (set_playing true
            (set_ctx (Some []) (set_canvas (Some page_canvas) ticked_scene))))
      = (s1, Normal tt) /\
    (1 / 50 / 1000) * (1 / 50 / 1000) <
    (- 1000 / 1000000) * (- 1000 / 1000000).
Proof.
  assert (H : 20 < 1000) by lra.
  destruct (restart_is_uncapped page_canvas 1%nat (1 / 2) ticked_scene 1000
              eq_refl H) as ((s1 & H1 & _) & H2).
  exists s1. split; [exact H1|exact H2].
Defined.

(** *** The bounded scene on the page *)

Lemma nrem_lt (t : R) : 0 <= t -> nrem t 500 < 500.
Proof.
  intros Ht. cbn. unfold trunc.
  assert (Hq : 0 <= t / 500) by (unfold Rdiv; nra).
  destruct (Rle_dec 0 (t / 500)) as [_|]; [|contradiction].
  destruct (base_Int_part (t / 500)) as [_ Hgt].
  assert (E : 500 * (t / 500) = t) by field. lra.
Qed.

(** A tick that comes half a second or more after the stored timestamp
    spawns, if there is room. *)
Lemma spawn_due (t dt r : R) s :
  0 <= t -> 1 / 2 <= dt ->
  simType s = BoundedObjects -> (length (objects s) < 100)%nat ->
  spawn t dt r s =
    (set_objects
       (objects s ++ [new_SimObject (350, 100) (Some (r * 20 + 10)) None]) s,
     Normal tt).
Proof.
  intros Ht Hdt Hty Hlen. unfold spawn, bind, get, modify, ret.
  rewrite Hty. cbv beta iota.
  rewrite nltb_true;
    [|pose proof (nrem_lt t Ht) as H; cbn; cbn in H; lra].
  apply Nat.ltb_lt in Hlen. rewrite Hlen. reflexivity.
Qed.

Lemma on_page_attached s : on_page s -> attached s.
Proof. intros (_ & Hc & Hx). split; [by eexists|exact Hx]. Qed.

Lemma step_on_page t h r s : on_page s -> on_page (step t h r s).1.
Proof.
  apply step_keeps.
  - intros s' x H. exact H.
  - intros s' c (Hty & Hc & _). split; [exact Hty|]. split; [exact Hc|].
    by eexists.
  - intros s' x H. exact H.
  - intros s' o H. exact H.
Qed.


(** A tick on an empty scene that computes [dtWall = 0] leaves it empty. *)
Lemma quiet_tick t h r s :
  objects s = [] -> 0 <= t -> step_dt (Simulation_t s) t = 0 ->
  objects (step t h r s).1 = [].
Proof.
  intros Ho Ht Hdt.
  apply (step_keeps_at (fun s' => objects s' = []));
    [intros s' x H; exact H|intros s' c H; exact H|intros s' x H; exact H
    | | | |exact Ho].
  - intros s' dt H. apply nil_length_inv.
    exact (eq_trans (substep_length dt s') (f_equal length H)).
  - intros s' H. cbn. by rewrite H.
  - intros s' H. rewrite Hdt, spawn_zero_dt by exact Ht. exact H.
Qed.

(** A tick on an empty bounded scene, half a second or more after the
    stored timestamp, leaves the object it spawns. *)
Lemma spawning_tick t h r s :
  on_page s -> objects s = [] ->
  0 <= t -> 1 / 2 <= step_dt (Simulation_t s) t ->
  objects (step t h r s).1 =
    [new_SimObject (350, 100) (Some (r * 20 + 10)) None].
Proof.
  intros Hpage Ho Ht Hdt.
  destruct (step_then_spawn (N := R_Number) t h r s (on_page_attached s Hpage))
    as (s1 & H1 & E1 & _ & E).
  assert (Ho1 : objects s1 = []).
  { apply nil_length_inv.
    pose proof (f_equal (fun x => length (objects x.1)) H1) as HL.
    cbv beta in HL. rewrite updates_length in HL.
    refine (eq_trans (eq_sym HL) _). cbn. by rewrite Ho. }
  rewrite E, spawn_due; [cbn; by rewrite Ho1|exact Ht|exact Hdt| |].
  - rewrite E1. apply Hpage.
  - rewrite Ho1. cbn. lia.
Qed.

(** The scene that [spawning_events] leave holds one spawned object. *)
Lemma spawning_events_spawn :
  objects (run spawning_events (new_Simulation BoundedObjects)) =
    [new_SimObject (350, 100) (Some (1 / 4 * 20 + 10)) None].
Proof.
  unfold spawning_events, run. cbn [foldl fire]. rewrite start_eq.
  set (s0 := set_playing true _).
  assert (P0 : on_page s0) by (repeat split; by eexists).
  assert (O0 : objects s0 = []) by reflexivity.
  set (s1 := (step _ 1%nat _ s0).1).
  assert (P1 : on_page s1) by apply step_on_page, P0.
  assert (O1 : objects s1 = []).
  { apply quiet_tick; [exact O0|apply Rle_refl|apply step_dt_fresh]. }
  assert (T1 : Simulation_t s1 = Some 0) by exact (step_t (N := R_Number) _ _ _ _).
  set (s2 := (step _ 2%nat _ s1).1).
  assert (P2 : on_page s2) by apply step_on_page, P1.
  assert (O2 : objects s2 = []).
  { apply quiet_tick; [exact O1|lra|]. rewrite T1. apply step_dt_zero. }
  assert (T2 : Simulation_t s2 = Some 16) by exact (step_t (N := R_Number) _ _ _ _).
  apply spawning_tick; [exact P2|exact O2|lra|].
  rewrite T2, step_dt_elapsed by lra. lra.
Qed.






(** The scene that has spawned its first object. *)
Lemma sizes_stay_positive_witness :
  objects (run spawning_events (new_Simulation BoundedObjects)) =
    [new_SimObject (350, 100) (Some (1 / 4 * 20 + 10)) None] /\
  Forall sized (objects (run spawning_events (new_Simulation BoundedObjects)))
  /\
  Forall spawned_size
    (objects (run spawning_events (new_Simulation BoundedObjects))).
Proof.
  assert (H : Forall (fun e : Event => match e with
                                       | Tick _ _ r | Start _ _ r => unit_random r
                                       | _ => True
                                       end) spawning_events)
    by (repeat constructor; unfold unit_random; lra).
  destruct (sizes_stay_positive BoundedObjects spawning_events H)
    as [Hsized Hspawned].
  split; [exact spawning_events_spawn|].
  split; [exact Hsized|exact (Hspawned eq_refl)].
Defined.

End ExactCoverage.

(** ** More facts of floating point arithmetic *)

Module IEEECoverage.
Import IEEE.
#[local] Existing Instance float_Number.

Lemma anchor_bob_separated : separated (N := float_Number) [anchor; bob].
Proof.
  intros i j a b Hij Hi Hj.
  destruct i as [|[|i]], j as [|[|j]]; try lia; try discriminate.
  injection Hi as <-. injection Hj as <-. right. reflexivity.
Qed.

(** The small pendulum: 1 call to clear, 4 for each of its 2 objects and 5
    for its link. *)
Lemma draw_frame_witness :
  exists log',
    draw drawn_pendulum = (set_ctx (Some ([] ++ log')) drawn_pendulum, Normal tt)
    /\ length log' = 14.
Proof.
  apply (draw_frame (N := float_Number) drawn_pendulum []).
  - by eexists.
  - reflexivity.
  - repeat constructor; cbn; lia.
Defined.

(** Two anchors 8 apart with radius 5 each: the second one is pushed 2
    further, to [(300, 210)]. *)
Lemma collide_both_anchored_witness :
  collide 0 1 [anchor; anchor'] !! 1%nat =
    Some (set_position (N := float_Number) (300, 210)%float anchor') /\
  collide 0 1 [anchor; anchor'] !! 0%nat = Some anchor.
Proof.
  destruct (collide_both_anchored (N := float_Number) 0 1 [anchor; anchor']
              anchor anchor' eq_refl eq_refl)
    as (Hb & Hk & _); try reflexivity; [discriminate|].
  split.
  - refine (eq_trans Hb _). vm_compute. reflexivity.
  - refine (eq_trans (Hk 0%nat _) _); [discriminate|reflexivity].
Defined.

(** The anchor and the bob, 50 apart with radius 5 each. *)
Lemma solveCollisions_separated_witness :
  solveCollisions (N := float_Number) [anchor; bob] = [anchor; bob].
Proof.
  exact (solveCollisions_separated (N := float_Number) [anchor; bob]
           anchor_bob_separated).
Defined.

End IEEECoverage.
